(** * Partition pooling: the partition normaliser and the three reductions

    A shallow embedding of [layer.py] (the [PartitionPooling] classes with
    [adjustPartitionLength]) and of [algorithm.py] ([maxPartitionPooling],
    [sumPartitionPooling], [averagePartitionPooling]).

    Numbers.  The source computes in floating point; every statement below is
    about exact arithmetic, so a float is a rational [Q] and equality of
    values is [Qeq] ([==]).  Node indices and lengths are Python ints: an
    index is a [Z] (nothing in the source keeps it from being negative), a
    length is a [nat].

    Arrays.  A TensorFlow tensor is its static shape together with the
    function from in-range positions to elements; one record per rank that
    the source uses.  The NumPy tables that [adjustPartitionLength] returns
    through [tolist()] are nested lists, as in the source.  The TensorFlow
    and NumPy calls of the source are modelled by their documented
    behaviour ([tf.gather] by that of its CPU kernel, which refuses an index
    outside the axis).

    Range.  The index arrays of the source hold 64-bit integers.  The model
    keeps an index as the integer it is, which is what the arrays do with an
    index in the range of [int64]; what NumPy and TensorFlow make of an index
    outside it (a wrapped value, another element type, an overflow error) is
    not followed.  A statement about the entries of the index table, or about
    which exception an index brings, carries the range as a hypothesis. *)

From Stdlib Require Import List ZArith QArith Qminmax Lia Bool Arith Setoid Morphisms.
From Stdlib Require Import Permutation.
From Stdlib Require String.
Import ListNotations.
Import String.StringSyntax.
Delimit Scope string_scope with string.

Set Implicit Arguments.

Local Close Scope Q_scope.
Local Open Scope nat_scope.

(** ** Exceptions *)

(** The exceptions that the modelled calls raise: Python's and NumPy's
    [ValueError], and TensorFlow's [TypeError] and [InvalidArgumentError]. *)
Inductive exn : Type :=
| ValueError
| TypeError
| InvalidArgumentError.

Inductive result (A : Type) : Type :=
| Ok (a : A)
| Raise (e : exn).

Arguments Ok {A} a.
Arguments Raise {A} e.

Definition bind {A B : Type} (c : result A) (k : A -> result B) : result B :=
  match c with
  | Ok a => k a
  | Raise e => Raise e
  end.

Notation "x <- c ;; k" := (bind c (fun x => k))
  (at level 61, c at next level, right associativity).
Notation "' p <- c ;; k" := (bind c (fun x => let p := x in k))
  (at level 61, p pattern, c at next level, right associativity).

Definition succeeds {A : Type} (c : result A) : Prop := exists a, c = Ok a.
Definition raises {A : Type} (c : result A) : Prop := exists e, c = Raise e.

(** ** Python and NumPy primitives used by [adjustPartitionLength] *)

Module Py.

(** [max(l)] on a list of lengths: [ValueError] on the empty list. *)
Definition max (l : list nat) : result nat :=
  match l with
  | [] => Raise ValueError
  | x :: xs => Ok (fold_left Nat.max xs x)
  end.

(** Where a slice [row[start:]] begins in a row of [n] entries: a negative
    [start] counts from the end and is clipped at 0, a positive one is
    clipped at [n]. *)
Definition slice_start (n : nat) (start : Z) : nat :=
  if (start <? 0)%Z
  then Z.to_nat (Z.max (Z.of_nat n + start) 0)
  else Nat.min (Z.to_nat start) n.

End Py.

Module Np.

(** [np.ones(n)] *)
Definition ones (n : nat) : list Q := repeat 1%Q n.

(** [np.pad(e, (0, after), 'edge')]: [after] copies of the last entry are
    appended.  An empty array can only be padded by nothing. *)
Definition pad_edge (e : list Z) (after : nat) : result (list Z) :=
  match e, after with
  | [], S _ => Raise ValueError
  | _, _ => Ok (e ++ repeat (last e 0%Z) after)
  end.

(** [row[start:] = v] *)
Definition assign_from (start : Z) (v : Q) (row : list Q) : list Q :=
  let s := Py.slice_start (length row) start in
  firstn s row ++ repeat v (length row - s).

(** [np.sum(row)] *)
Definition sum (row : list Q) : Q := fold_right Qplus 0%Q row.

(** [np.sum(table, axis=-1)] *)
Definition sum_last_axis (table : list (list Q)) : list Q := map sum table.

End Np.

(** ** [PartitionPooling.adjustPartitionLength] *)

(** The weight that a row padded by [lenDiff] entries gets on its last
    [lenDiff + 1] slots: [1. / (lenDiff + 1)]. *)
Definition padWeight (lenDiff : nat) : Q :=
  (1 / inject_Z (Z.of_nat lenDiff + 1))%Q.

(** One round of the loop [for i, e in enumerate(part)]: the row of
    [adjustedPartitions] and the row of [countWeights] for the group [e].
    The row of indices is stored as it is padded, which is what the store
    into the [int64] array does for indices in the range of [int64]. *)
Definition adjustRow (maxLen : nat) (e : list Z) : result (list Z * list Q) :=
  let lenDiff := maxLen - length e in
  row <- Np.pad_edge e lenDiff ;;
  Ok (row,
      Np.assign_from (- (Z.of_nat lenDiff + 1)) (padWeight lenDiff) (Np.ones maxLen)).

(** The loop over the groups; the first group that cannot be padded ends it. *)
Fixpoint adjustRows (maxLen : nat) (part : list (list Z))
  : result (list (list Z) * list (list Q)) :=
  match part with
  | [] => Ok ([], [])
  | e :: rest =>
      '(row, w) <- adjustRow maxLen e ;;
      '(rows, ws) <- adjustRows maxLen rest ;;
      Ok (row :: rows, w :: ws)
  end.

Definition adjustPartitionLength (part : list (list Z))
  : result (list (list Z) * list (list Q)) :=
  let l := map (@length Z) part in
  maxLen <- Py.max l ;;
  adjustRows maxLen part.

(** ** Tensors *)

(** A dense tensor of rank 1 to 4: the shape, and the element at a position.
    Only positions inside the shape are ever meaningful. *)
Record Tensor1 (A : Type) : Type :=
  mkT1 { shape1 : nat; at1 : nat -> A }.
Record Tensor2 (A : Type) : Type :=
  mkT2 { shape2 : nat * nat; at2 : nat -> nat -> A }.
Record Tensor3 (A : Type) : Type :=
  mkT3 { shape3 : nat * nat * nat; at3 : nat -> nat -> nat -> A }.
Record Tensor4 (A : Type) : Type :=
  mkT4 { shape4 : nat * nat * nat * nat; at4 : nat -> nat -> nat -> nat -> A }.

(** The value of a max over an empty axis is minus infinity, which [Q] does
    not have: the result of a max reduction is a rational or [NegInf]. *)
Inductive xq : Type :=
| NegInf
| Fin (q : Q).

Definition xmax (a b : xq) : xq :=
  match a, b with
  | NegInf, _ => b
  | _, NegInf => a
  | Fin x, Fin y => Fin (Qmax x y)
  end.

Module Tf.

Section Constant.
Context {A : Type} (dflt : A).

(** [tf.constant] of a flat list. *)
Definition constant1 (l : list A) : Tensor1 A :=
  mkT1 (length l) (fun i => nth i l dflt).

(** [tf.constant] of a list of lists, read as a rank-2 tensor; the
    rows must have one length. *)
Definition constant2 (rows : list (list A)) : result (Tensor2 A) :=
  let m := length (hd [] rows) in
  if forallb (fun r => length r =? m) rows
  then Ok (mkT2 (length rows, m) (fun i j => nth j (nth i rows []) dflt))
  else Raise ValueError.
End Constant.

(** The element type that [tf.constant] infers for a literal of Python
    ints: an integer type, but [float32] (the default) when the literal has
    no element at all.  [Int32] stands for the integer types that the
    gather takes as indices ([int32], and [int64] for an index that needs
    it); a literal with an entry beyond [int64] gets another type and is
    outside the model. *)
Inductive dtype : Type :=
| Int32
| Float32.

Definition constant_ints (rows : list (list Z)) : result (dtype * Tensor2 Z) :=
  t <- constant2 0%Z rows ;;
  Ok (match concat rows with [] => Float32 | _ :: _ => Int32 end, t).

(** The nested list of the elements of a rank-3 tensor. *)
Definition to_list3 {A : Type} (t : Tensor3 A) : list (list (list A)) :=
  let '(d0, d1, d2) := shape3 t in
  map (fun b => map (fun i => map (fun k => at3 t b i k) (seq 0 d2)) (seq 0 d1))
      (seq 0 d0).

(** An index the gather kernel accepts on an axis of [limit] entries. *)
Definition index_ok (limit : nat) (i : Z) : bool :=
  ((0 <=? i) && (i <? Z.of_nat limit))%Z.

(** Under [@tf.function] a call first traces the body: every operation
    is built, in program order, and its element type and static shape are
    inferred; an operation that cannot be built raises then.  The kernels
    run afterwards, and a kernel that fails raises then.  A traced value is
    the value together with the exception, if any, that running the kernels
    it depends on brings. *)
Definition graph (A : Type) : Type := result (A * option exn).

(** An operation whose kernel cannot fail, and one that is only built. *)
Definition built {A : Type} (a : A) : graph A := Ok (a, None).
Definition trace {A : Type} (c : result A) : graph A := a <- c ;; built a.

Definition gbind {A B : Type} (c : graph A) (k : A -> graph B) : graph B :=
  '(a, failure) <- c ;;
  '(b, failure') <- k a ;;
  Ok (b, match failure with Some e => Some e | None => failure' end).

(** The decorator: trace, then run. *)
Definition function {A : Type} (body : graph A) : result A :=
  '(a, failure) <- body ;;
  match failure with
  | Some e => Raise e
  | None => Ok a
  end.

(** The index check of the gather kernel.  The CPU kernel checks an index
    when it copies the slice the index names, and refuses one outside
    [0, nodes); when the output has no element (no batch element or no
    feature) nothing is copied and nothing is checked. *)
Definition gather_kernel {A : Type} (params : Tensor3 A) (indices : Tensor2 Z)
  : option exn :=
  let '(d0, d1, d2) := shape3 params in
  let '(P, M) := shape2 indices in
  if (d0 =? 0) || (d2 =? 0)
     || forallb (fun p => forallb (fun m => index_ok d1 (at2 indices p m))
                                  (seq 0 M))
                (seq 0 P)
  then None
  else Some InvalidArgumentError.

(** [tf.gather(params, indices, batch_dims=0, axis=1)] for [params] of rank 3
    and [indices] of rank 2: the result has shape (batch, P, M, features)
    and holds, at (b, p, m, f), [params[b, indices[p, m], f]].  Indices
    that are not integers are refused when the operation is built; the
    index check is the kernel's. *)
Definition gather_axis1 {A : Type} (params : Tensor3 A)
           (indices : dtype * Tensor2 Z) : graph (Tensor4 A) :=
  match fst indices with
  | Float32 => Raise TypeError
  | Int32 =>
      let '(d0, d1, d2) := shape3 params in
      let '(P, M) := shape2 (snd indices) in
      Ok (mkT4 (d0, P, M, d2)
               (fun b p m f => at3 params b (Z.to_nat (at2 (snd indices) p m)) f),
          gather_kernel params (snd indices))
  end.

(** [tf.reshape(w, [1, *w.shape, 1])] for [w] of rank 2 and of rank 1. *)
Definition reshape_1_2_1 {A : Type} (w : Tensor2 A) : Tensor4 A :=
  let '(P, M) := shape2 w in
  mkT4 (1, P, M, 1) (fun _ p m _ => at2 w p m).

Definition reshape_1_1_1 {A : Type} (s : Tensor1 A) : Tensor3 A :=
  mkT3 (1, shape1 s, 1) (fun _ p _ => at1 s p).

(** Broadcasting of one axis: equal sizes, or one of them 1.  Shapes are
    static, so sizes that do not broadcast are found when the operation is
    built. *)
Definition bdim (a b : nat) : result nat :=
  if a =? b then Ok a
  else if a =? 1 then Ok b
  else if b =? 1 then Ok a
  else Raise ValueError.

(** The position read on an axis of size [d] for the output position [i]. *)
Definition bidx (d i : nat) : nat := if d =? 1 then 0 else i.

(** An elementwise binary operation with broadcasting, rank 4 and rank 3. *)
Definition broadcast4 {A B C : Type} (op : A -> B -> C)
           (x : Tensor4 A) (y : Tensor4 B) : result (Tensor4 C) :=
  let '(x0, x1, x2, x3) := shape4 x in
  let '(y0, y1, y2, y3) := shape4 y in
  d0 <- bdim x0 y0 ;;
  d1 <- bdim x1 y1 ;;
  d2 <- bdim x2 y2 ;;
  d3 <- bdim x3 y3 ;;
  Ok (mkT4 (d0, d1, d2, d3)
           (fun i j k l =>
              op (at4 x (bidx x0 i) (bidx x1 j) (bidx x2 k) (bidx x3 l))
                 (at4 y (bidx y0 i) (bidx y1 j) (bidx y2 k) (bidx y3 l)))).

Definition broadcast3 {A B C : Type} (op : A -> B -> C)
           (x : Tensor3 A) (y : Tensor3 B) : result (Tensor3 C) :=
  let '(x0, x1, x2) := shape3 x in
  let '(y0, y1, y2) := shape3 y in
  d0 <- bdim x0 y0 ;;
  d1 <- bdim x1 y1 ;;
  d2 <- bdim x2 y2 ;;
  Ok (mkT3 (d0, d1, d2)
           (fun i j k =>
              op (at3 x (bidx x0 i) (bidx x1 j) (bidx x2 k))
                 (at3 y (bidx y0 i) (bidx y1 j) (bidx y2 k)))).

(** [tf.math.multiply], [tf.math.divide].  A float division by zero gives an
    infinity or a NaN and raises nothing; in [Q] it gives 0.  Where a
    statement below divides, it also says that the divisor is not zero. *)
Definition multiply4 := broadcast4 Qmult.
Definition divide3 := broadcast3 Qdiv.

(** A reduction over axis 2 of a rank-4 tensor: the elements along that
    axis, in order, are folded from the reduction's neutral element. *)
Definition along_axis2 {A : Type} (t : Tensor4 A) (b p f : nat) : list A :=
  let '(_, _, M, _) := shape4 t in
  map (fun m => at4 t b p m f) (seq 0 M).

Definition reduce_axis2 {A B : Type} (red : list A -> B) (t : Tensor4 A)
  : Tensor3 B :=
  let '(d0, d1, _, d3) := shape4 t in
  mkT3 (d0, d1, d3) (fun b p f => red (along_axis2 t b p f)).

(** [tf.math.reduce_sum(t, axis=2)], [tf.math.reduce_max(t, axis=2)] *)
Definition sum_list (l : list Q) : Q := fold_right Qplus 0%Q l.
Definition max_list (l : list Q) : xq :=
  fold_right (fun q acc => xmax (Fin q) acc) NegInf l.

Definition reduce_sum_axis2 := reduce_axis2 sum_list.
Definition reduce_max_axis2 := reduce_axis2 max_list.

End Tf.

(** ** [algorithm.py] *)

Notation "x <~ c ;; k" := (Tf.gbind c (fun x => k))
  (at level 61, c at next level, right associativity).

Definition maxPartitionPooling (tensor : Tensor3 Q) (partitions : list (list Z))
  : result (Tensor3 xq) :=
  Tf.function
    (indices <~ Tf.trace (Tf.constant_ints partitions) ;;
     gathered <~ Tf.gather_axis1 tensor indices ;;
     Tf.built (Tf.reduce_max_axis2 gathered)).

Definition sumPartitionPooling (tensor : Tensor3 Q) (nodeWeights : Tensor2 Q)
           (partitions : list (list Z)) : result (Tensor3 Q) :=
  Tf.function
    (indices <~ Tf.trace (Tf.constant_ints partitions) ;;
     gathered <~ Tf.gather_axis1 tensor indices ;;
     product <~ Tf.trace (Tf.multiply4 gathered (Tf.reshape_1_2_1 nodeWeights)) ;;
     Tf.built (Tf.reduce_sum_axis2 product)).

Definition averagePartitionPooling (tensor : Tensor3 Q) (nodeWeights : Tensor2 Q)
           (partitionSizes : Tensor1 Q) (partitions : list (list Z))
  : result (Tensor3 Q) :=
  Tf.function
    (indices <~ Tf.trace (Tf.constant_ints partitions) ;;
     gathered <~ Tf.gather_axis1 tensor indices ;;
     product <~ Tf.trace (Tf.multiply4 gathered (Tf.reshape_1_2_1 nodeWeights)) ;;
     Tf.trace (Tf.divide3 (Tf.reduce_sum_axis2 product)
                          (Tf.reshape_1_1_1 partitionSizes))).

(** ** The layers of [layer.py] *)

(** The base class: what [__init__] stores.  The subclasses turn the
    weights into [float32] constants; the rounding this brings is outside
    exact arithmetic and is not modelled. *)
Record PartitionPooling : Type := mkPartitionPooling {
  partitions : list (list Z);
  adjustedPartitions : list (list Z);
  countWeights : list (list Q)
}.

Definition PartitionPooling_init (part : list (list Z)) : result PartitionPooling :=
  '(adj, w) <- adjustPartitionLength part ;;
  Ok (mkPartitionPooling part adj w).

Module MaxPartitionPooling.
Definition t : Type := PartitionPooling.
Definition init (part : list (list Z)) : result t := PartitionPooling_init part.
Definition call (self : t) (layer : Tensor3 Q) : result (Tensor3 xq) :=
  maxPartitionPooling layer (adjustedPartitions self).
End MaxPartitionPooling.

Module SumPartitionPooling.
Record t : Type := mk { base : PartitionPooling; nodeWeights : Tensor2 Q }.
Definition init (part : list (list Z)) : result t :=
  super <- PartitionPooling_init part ;;
  w <- Tf.constant2 0%Q (countWeights super) ;;
  Ok (mk super w).
Definition call (self : t) (layer : Tensor3 Q) : result (Tensor3 Q) :=
  sumPartitionPooling layer (nodeWeights self) (adjustedPartitions (base self)).
End SumPartitionPooling.

Module AveragePartitionPooling.
Record t : Type := mk {
  base : PartitionPooling;
  nodeWeight : Tensor2 Q;
  partitionSizes : Tensor1 Q
}.
Definition init (part : list (list Z)) : result t :=
  super <- PartitionPooling_init part ;;
  w <- Tf.constant2 0%Q (countWeights super) ;;
  Ok (mk super w (Tf.constant1 0%Q (Np.sum_last_axis (countWeights super)))).
Definition call (self : t) (layer : Tensor3 Q) : result (Tensor3 Q) :=
  averagePartitionPooling layer (nodeWeight self) (partitionSizes self)
                          (adjustedPartitions (base self)).
End AveragePartitionPooling.

(** *** [PartitionPooling.get_config] *)

(** A Python dict with string keys, in insertion order.  Setting a key
    that is present replaces its value in place; a new key goes last. *)
Definition dict (V : Type) : Type := list (String.string * V).

Fixpoint dict_get {V : Type} (k : String.string) (d : dict V) : option V :=
  match d with
  | [] => None
  | (k', v) :: rest => if String.eqb k k' then Some v else dict_get k rest
  end.

Fixpoint dict_set {V : Type} (k : String.string) (v : V) (d : dict V) : dict V :=
  match d with
  | [] => [(k, v)]
  | (k', v') :: rest =>
      if String.eqb k k' then (k', v) :: rest else (k', v') :: dict_set k v rest
  end.

(** A value of a layer config: one that the Keras base class put there (of
    a type [V] that is left open), or a partition spec. *)
Inductive configValue (V : Type) : Type :=
| KerasValue (v : V)
| PartitionsValue (p : list (list Z)).

Arguments KerasValue {V} v.
Arguments PartitionsValue {V} p.

(** [get_config]: [{**base_config, "partitions": self.partitions}], where
    [base_config] is what [super().get_config()] returns. *)
Definition get_config {V : Type} (self : PartitionPooling)
           (base_config : dict (configValue V)) : dict (configValue V) :=
  dict_set "partitions"%string (PartitionsValue (partitions self)) base_config.

(** The pooled tensor of a layer built from [part] and applied to [x]. *)
Definition maxPool (part : list (list Z)) (x : Tensor3 Q) : result (Tensor3 xq) :=
  self <- MaxPartitionPooling.init part ;; MaxPartitionPooling.call self x.
Definition sumPool (part : list (list Z)) (x : Tensor3 Q) : result (Tensor3 Q) :=
  self <- SumPartitionPooling.init part ;; SumPartitionPooling.call self x.
Definition avgPool (part : list (list Z)) (x : Tensor3 Q) : result (Tensor3 Q) :=
  self <- AveragePartitionPooling.init part ;; AveragePartitionPooling.call self x.

(* ================================================================== *)
(** * Vocabulary of the statements *)

(** A partition spec as the normaliser expects it: at least one group, no
    empty group. *)
Definition validSpec (part : list (list Z)) : Prop :=
  part <> [] /\ Forall (fun e => e <> []) part.

(** The largest group length of a spec. *)
Definition maxLenOf (part : list (list Z)) : nat :=
  fold_right Nat.max 0 (map (@length Z) part).

(** Group [e] right-padded to width [maxLen] with its last index. *)
Definition paddedRow (maxLen : nat) (e : list Z) : list Z :=
  e ++ repeat (last e 0%Z) (maxLen - length e).

(** The weights of a group of [len] indices in a table of width [maxLen]. *)
Definition weightRow (maxLen len : nat) : list Q :=
  repeat 1%Q (len - 1) ++ repeat (padWeight (maxLen - len)) (maxLen - len + 1).

(** Every index of the table is a position on a node axis of [nodes] entries. *)
Definition inBounds (nodes : nat) (table : list (list Z)) : Prop :=
  Forall (Forall (fun j => (0 <= j < Z.of_nat nodes)%Z)) table.

(** The features [f] of the members of a group, in batch element [b]. *)
Definition members (x : Tensor3 Q) (b f : nat) (g : list Z) : list Q :=
  map (fun j => at3 x b (Z.to_nat j) f) g.

(** The unweighted sum, the arithmetic mean and the maximum over a group. *)
Definition groupSum (x : Tensor3 Q) (b f : nat) (g : list Z) : Q :=
  Tf.sum_list (members x b f g).
Definition groupMean (x : Tensor3 Q) (b f : nat) (g : list Z) : Q :=
  (groupSum x b f g / inject_Z (Z.of_nat (length g)))%Q.
Definition groupMax (x : Tensor3 Q) (b f : nat) (g : list Z) : xq :=
  Tf.max_list (members x b f g).

(** The rank-3 tensor written as a nested list (batch, nodes, features). *)
Definition tensorOfList (t : list (list (list Q))) : Tensor3 Q :=
  mkT3 (length t, length (hd [] t), length (hd [] (hd [] t)))
       (fun b i k => nth k (nth i (nth b t []) []) 0%Q).

(** A table whose rows all have [M] entries (with [M = 0] for no row). *)
Definition rectangular {A : Type} (M : nat) (table : list (list A)) : Prop :=
  length (hd [] table) = M /\ Forall (fun r => length r = M) table.

(** The rank-2 tensor that [tf.constant] makes of a rectangular table. *)
Definition tableTensor {A : Type} (dflt : A) (M : nat) (table : list (list A))
  : Tensor2 A :=
  mkT2 (length table, M) (fun i j => nth j (nth i table []) dflt).

(** The tensor that the gather returns when it accepts the table. *)
Definition gathered {A : Type} (x : Tensor3 A) (M : nat) (table : list (list Z))
  : Tensor4 A :=
  mkT4 (fst (fst (shape3 x)), length table, M, snd (shape3 x))
       (fun b p m f => at3 x b (Z.to_nat (nth m (nth p table []) 0%Z)) f).

(** The weighted sum of the members of a row, slot by slot. *)
Definition weightedSum (x : Tensor3 Q) (b f : nat) (row : list Z) (w : list Q) : Q :=
  Tf.sum_list
    (map (fun jw => (at3 x b (Z.to_nat (fst jw)) f * snd jw)%Q) (combine row w)).

(** What the specification lists as a malformed partition spec.  (An index
    that is not an integer is not a value of the index type.) *)
Definition malformed (part : list (list Z)) : Prop :=
  part = [] \/ Exists (fun e => e = []) part
  \/ Exists (Exists (fun j => (j < 0)%Z)) part.

(** The sum of two tensors of one shape, and the multiple of a tensor. *)
Definition tadd3 (x y : Tensor3 Q) : Tensor3 Q :=
  mkT3 (shape3 x) (fun b i k => (at3 x b i k + at3 y b i k)%Q).
Definition tscale3 (c : Q) (x : Tensor3 Q) : Tensor3 Q :=
  mkT3 (shape3 x) (fun b i k => (c * at3 x b i k)%Q).

(** The pooled entries of a layer call, as a nested list in lowest terms. *)
Definition entries (r : result (Tensor3 Q)) : result (list (list (list Q))) :=
  out <- r ;; Ok (map (map (map Qred)) (Tf.to_list3 out)).

(** What a traced body gives once it has run. *)
Definition ran {A : Type} (failure : option exn) (a : A) : result A :=
  match failure with
  | Some e => Raise e
  | None => Ok a
  end.

(** The range of a 64-bit signed integer, and a spec or table whose
    indices all lie in it. *)
Definition int64 (j : Z) : Prop := (- 2 ^ 63 <= j < 2 ^ 63)%Z.
Definition int64Spec (part : list (list Z)) : Prop := Forall (Forall int64) part.

(** Equality and order of the results of a max reduction: [NegInf] is
    below every rational, and rationals compare by their value. *)
Definition xeq (a b : xq) : Prop :=
  match a, b with
  | NegInf, NegInf => True
  | Fin p, Fin q => (p == q)%Q
  | _, _ => False
  end.


(** Two tensors hold the same features [f] of batch element [b] at the
    nodes of the group [g]. *)
Definition agreeOn (x y : Tensor3 Q) (b f : nat) (g : list Z) : Prop :=
  forall j, In j g -> at3 x b (Z.to_nat j) f = at3 y b (Z.to_nat j) f.


(* ================================================================== *)
(** * Properties *)

Unset Implicit Arguments.

(** ** Lists *)

Lemma firstn_repeat_le (A : Type) (x : A) (k n : nat) :
  k <= n -> firstn k (repeat x n) = repeat x k.
Proof.
  revert n; induction k as [|k IH]; intros [|n] H; simpl; try reflexivity; try lia.
  f_equal. apply IH. lia.
Qed.

Lemma last_in (A : Type) (d : A) (l : list A) : l <> [] -> In (last l d) l.
Proof.
  induction l as [|a [|b l] IH]; intros H.
  - congruence.
  - now left.
  - right. apply IH. discriminate.
Qed.

Lemma split_last (A : Type) (d : A) (l : list A) :
  l <> [] -> l = removelast l ++ [last l d].
Proof. intros H. now apply app_removelast_last. Qed.

Lemma length_removelast (A : Type) (l : list A) :
  length (removelast l) = length l - 1.
Proof.
  induction l as [|a [|b l] IH]; simpl in *; try reflexivity.
  rewrite IH. lia.
Qed.

(** ** The maximum of the lengths *)

Lemma fold_max_ge (xs : list nat) (x : nat) :
  x <= fold_left Nat.max xs x /\ forall y, In y xs -> y <= fold_left Nat.max xs x.
Proof.
  revert x; induction xs as [|a xs IH]; intros x; simpl.
  - split; [lia | tauto].
  - destruct (IH (Nat.max x a)) as [H1 H2]. split; [lia|].
    intros y [<-|Hy]; [lia | now apply H2].
Qed.

Lemma fold_max_in (xs : list nat) (x : nat) :
  fold_left Nat.max xs x = x \/ In (fold_left Nat.max xs x) xs.
Proof.
  revert x; induction xs as [|a xs IH]; intros x; simpl.
  - now left.
  - destruct (IH (Nat.max x a)) as [H|H]; [|now right; right].
    rewrite H. destruct (Nat.max_spec x a) as [[_ ->]|[_ ->]]; auto.
Qed.

Lemma py_max_spec (l : list nat) (m : nat) :
  Py.max l = Ok m -> In m l /\ forall y, In y l -> y <= m.
Proof.
  destruct l as [|x xs]; simpl; [discriminate|].
  intros [= <-]. destruct (fold_max_ge xs x) as [H1 H2]. split.
  - destruct (fold_max_in xs x) as [->|H]; auto.
  - intros y [<-|Hy]; auto.
Qed.

Lemma py_max_ok (l : list nat) : l <> [] -> exists m, Py.max l = Ok m.
Proof. destruct l; [congruence | eexists; reflexivity]. Qed.

(** ** One row of the two tables *)

Lemma pad_edge_ok (e : list Z) (k : nat) :
  e <> [] \/ k = 0 -> Np.pad_edge e k = Ok (e ++ repeat (last e 0%Z) k).
Proof. destruct e, k; simpl; intros [H|H]; congruence. Qed.

Lemma assign_from_ones (maxLen len : nat) :
  1 <= len <= maxLen ->
  Np.assign_from (- (Z.of_nat (maxLen - len) + 1)) (padWeight (maxLen - len))
                 (Np.ones maxLen)
  = weightRow maxLen len.
Proof.
  intros H. unfold Np.assign_from, Np.ones, weightRow, Py.slice_start.
  rewrite repeat_length.
  destruct (Z.ltb_spec (- (Z.of_nat (maxLen - len) + 1)) 0) as [_|Hge]; [|lia].
  replace (Z.to_nat (Z.max (Z.of_nat maxLen + - (Z.of_nat (maxLen - len) + 1)) 0))
    with (len - 1) by lia.
  rewrite firstn_repeat_le by lia.
  f_equal. f_equal. lia.
Qed.

Lemma adjustRow_ok (maxLen : nat) (e : list Z) :
  e <> [] -> length e <= maxLen ->
  adjustRow maxLen e = Ok (paddedRow maxLen e, weightRow maxLen (length e)).
Proof.
  intros He Hle. unfold adjustRow.
  rewrite pad_edge_ok by now left. simpl.
  rewrite assign_from_ones; [reflexivity|].
  destruct e; [congruence | simpl in *; lia].
Qed.

Lemma adjustRows_ok (maxLen : nat) (part : list (list Z)) :
  Forall (fun e => e <> [] /\ length e <= maxLen) part ->
  adjustRows maxLen part
  = Ok (map (paddedRow maxLen) part,
        map (fun e => weightRow maxLen (length e)) part).
Proof.
  induction 1 as [|e part [He Hle] _ IH]; simpl; [reflexivity|].
  rewrite adjustRow_ok by assumption. simpl. rewrite IH. reflexivity.
Qed.

Lemma maxLenOf_ge (part : list (list Z)) (e : list Z) :
  In e part -> length e <= maxLenOf part.
Proof.
  unfold maxLenOf. induction part as [|a part IH]; simpl; [tauto|].
  intros [<-|H]; [lia | specialize (IH H); lia].
Qed.

Lemma maxLenOf_least (part : list (list Z)) (m : nat) :
  (forall e, In e part -> length e <= m) -> maxLenOf part <= m.
Proof.
  unfold maxLenOf. induction part as [|a part IH]; simpl; intros H; [lia|].
  apply Nat.max_lub; [apply H; now left | apply IH; intros; apply H; now right].
Qed.

Lemma py_max_maxLenOf (part : list (list Z)) :
  part <> [] -> Py.max (map (@length Z) part) = Ok (maxLenOf part).
Proof.
  intros H. destruct (py_max_ok (map (@length Z) part)) as [m Hm].
  { destruct part; [congruence | discriminate]. }
  rewrite Hm. f_equal. destruct (py_max_spec _ _ Hm) as [Hin Hub].
  apply Nat.le_antisymm.
  - apply in_map_iff in Hin. destruct Hin as [e [<- He]]. now apply maxLenOf_ge.
  - apply maxLenOf_least. intros e He. apply Hub. now apply in_map.
Qed.

Lemma adjustPartitionLength_valid (part : list (list Z)) :
  validSpec part ->
  adjustPartitionLength part
  = Ok (map (paddedRow (maxLenOf part)) part,
        map (fun e => weightRow (maxLenOf part) (length e)) part).
Proof.
  intros [Hne Hall]. unfold adjustPartitionLength.
  rewrite py_max_maxLenOf by assumption. simpl.
  apply adjustRows_ok. rewrite Forall_forall in *. intros e He.
  split; [now apply Hall | now apply maxLenOf_ge].
Qed.

(** ** Sums of rationals *)

Lemma sum_list_app (l1 l2 : list Q) :
  (Tf.sum_list (l1 ++ l2) == Tf.sum_list l1 + Tf.sum_list l2)%Q.
Proof.
  induction l1 as [|a l1 IH]; simpl.
  - ring.
  - rewrite IH. ring.
Qed.

Lemma sum_list_repeat (v : Q) (n : nat) :
  (Tf.sum_list (repeat v n) == inject_Z (Z.of_nat n) * v)%Q.
Proof.
  induction n as [|n IH].
  - simpl. ring.
  - cbn [repeat Tf.sum_list fold_right]. fold (Tf.sum_list (repeat v n)).
    rewrite IH, Nat2Z.inj_succ. unfold Z.succ. rewrite inject_Z_plus. ring.
Qed.

Lemma padWeight_total (k : nat) :
  (inject_Z (Z.of_nat (k + 1)) * padWeight k == 1)%Q.
Proof.
  unfold padWeight. rewrite Nat2Z.inj_add. simpl (Z.of_nat 1).
  field. intros H.
  assert (H' : (inject_Z (Z.of_nat k + 1) == inject_Z 0)%Q) by exact H.
  rewrite inject_Z_injective in H'. lia.
Qed.

Lemma padWeight_0 : padWeight 0 = 1%Q.
Proof. reflexivity. Qed.

Lemma weightRow_length (maxLen len : nat) :
  1 <= len <= maxLen -> length (weightRow maxLen len) = maxLen.
Proof.
  intros H. unfold weightRow. rewrite length_app, !repeat_length. lia.
Qed.

Lemma weightRow_sum (maxLen len : nat) :
  1 <= len ->
  (Tf.sum_list (weightRow maxLen len) == inject_Z (Z.of_nat len))%Q.
Proof.
  intros H. unfold weightRow.
  rewrite sum_list_app, !sum_list_repeat, padWeight_total.
  replace (Z.of_nat len) with (Z.of_nat (len - 1) + 1)%Z by lia.
  rewrite inject_Z_plus. ring.
Qed.

Lemma weightRow_full (maxLen : nat) :
  1 <= maxLen -> weightRow maxLen maxLen = repeat 1%Q maxLen.
Proof.
  intros H. unfold weightRow. rewrite Nat.sub_diag, padWeight_0.
  rewrite <- repeat_app. f_equal. lia.
Qed.

Lemma paddedRow_length (maxLen : nat) (e : list Z) :
  length e <= maxLen -> length (paddedRow maxLen e) = maxLen.
Proof.
  intros H. unfold paddedRow. rewrite length_app, repeat_length. lia.
Qed.

Lemma validSpec_in (part : list (list Z)) (e : list Z) :
  validSpec part -> In e part -> 1 <= length e <= maxLenOf part.
Proof.
  intros [_ Hall] He. split; [|now apply maxLenOf_ge].
  rewrite Forall_forall in Hall. specialize (Hall e He).
  destruct e; [congruence | simpl; lia].
Qed.

Lemma maxLenOf_attained (part : list (list Z)) :
  part <> [] -> exists e, In e part /\ length e = maxLenOf part.
Proof.
  intros H. pose proof (py_max_maxLenOf part H) as Hm.
  apply py_max_spec in Hm. destruct Hm as [Hin _].
  apply in_map_iff in Hin. destruct Hin as [e [He1 He2]]. eauto.
Qed.

(** ** The index table (C6) *)

(** C6.  For a valid partition spec (of indices in the range of [int64],
    as every index of a node axis is) the normaliser returns tables, and row
    [i] of the index table is group [i] in its order followed by
    [maxLen - len_i] copies of the group's last index, where [maxLen] is the
    largest group length (an upper bound of all lengths that some group
    attains); every entry of the row is a member of group [i]. *)
Theorem indexTable_row_is_group_padded_with_last (part : list (list Z)) :
  validSpec part -> int64Spec part ->
  exists adj cw,
    adjustPartitionLength part = Ok (adj, cw)
    /\ length adj = length part
    /\ (forall e, In e part -> length e <= maxLenOf part)
    /\ (exists e, In e part /\ length e = maxLenOf part)
    /\ forall i g, nth_error part i = Some g ->
         exists row,
           nth_error adj i = Some row
           /\ row = g ++ repeat (last g 0%Z) (maxLenOf part - length g)
           /\ length row = maxLenOf part
           /\ Forall (fun j => In j g) row.
Proof.
  intros Hv _. eexists _, _. split; [now apply adjustPartitionLength_valid|].
  split; [now rewrite length_map|].
  split; [intros e; apply maxLenOf_ge|].
  split; [apply maxLenOf_attained; apply Hv|].
  intros i g Hg. exists (paddedRow (maxLenOf part) g).
  assert (Hin : In g part) by (eapply nth_error_In; eauto).
  destruct (validSpec_in _ _ Hv Hin) as [H1 H2].
  split; [now rewrite nth_error_map, Hg|].
  split; [reflexivity|].
  split; [now apply paddedRow_length|].
  unfold paddedRow. apply Forall_app. split.
  - apply Forall_forall. auto.
  - apply Forall_forall. intros j Hj. apply repeat_spec in Hj. subst j.
    apply last_in. destruct g; [simpl in H1; lia | discriminate].
Qed.

Lemma indexTable_row_witness :
  exists adj cw,
    adjustPartitionLength [[0; 1; 4]; [2]; [3; 5]]%Z = Ok (adj, cw)
    /\ nth_error adj 1 = Some [2; 2; 2]%Z.
Proof.
  destruct (indexTable_row_is_group_padded_with_last [[0; 1; 4]; [2]; [3; 5]]%Z)
    as (adj & cw & Hrun & _ & _ & _ & Hrow).
  - split; [discriminate | repeat constructor; discriminate].
  - repeat constructor; unfold int64; simpl; lia.
  - exists adj, cw. split; [exact Hrun|].
    destruct (Hrow 1 [2]%Z eq_refl) as (row & Hnth & -> & _). exact Hnth.
Defined.

(** ** The weight table (C5, C2) *)





(** ** When the normaliser raises (C7) *)

Lemma adjustRow_empty (maxLen : nat) :
  adjustRow maxLen []
  = if maxLen =? 0 then Ok ([], []) else Raise ValueError.
Proof.
  unfold adjustRow. simpl (length []). rewrite Nat.sub_0_r.
  destruct maxLen; reflexivity.
Qed.

Lemma adjustRows_result (maxLen : nat) (part : list (list Z)) :
  (forall e, In e part -> length e <= maxLen) ->
  (In [] part /\ maxLen <> 0 /\ adjustRows maxLen part = Raise ValueError)
  \/ ((~ In [] part \/ maxLen = 0) /\ succeeds (adjustRows maxLen part)).
Proof.
  induction part as [|e part IH]; intros Hle.
  - right. split; [left; simpl; tauto | eexists; reflexivity].
  - assert (Hle' : forall e', In e' part -> length e' <= maxLen)
      by (intros; apply Hle; now right).
    cbn [adjustRows]. destruct e as [|j e].
    + rewrite adjustRow_empty. destruct (Nat.eqb_spec maxLen 0) as [H0|H0].
      * right. split; [now right|].
        destruct (IH Hle') as [(_ & Hn & _)|(_ & [[rows ws] ->])]; [congruence|].
        eexists; reflexivity.
      * left. repeat split; auto. now left.
    + rewrite adjustRow_ok; [|discriminate | apply Hle; now left].
      cbn [bind]. destruct (IH Hle') as [(Hin & Hn & ->)|(Hno & [[rows ws] ->])].
      * left. repeat split; auto. now right.
      * right. split; [|eexists; reflexivity].
        destruct Hno as [Hno|Hno]; [left | now right].
        intros [H|H]; [discriminate | tauto].
Qed.

Lemma maxLenOf_0 (part : list (list Z)) :
  maxLenOf part <> 0 <-> exists e, In e part /\ e <> [].
Proof.
  split.
  - intros H. destruct part as [|e0 part]; [now destruct H|].
    destruct (maxLenOf_attained (e0 :: part)) as [e [He Hl]]; [discriminate|].
    exists e. split; [exact He|]. intros ->. simpl in Hl. congruence.
  - intros [e [He Hne]] H. pose proof (maxLenOf_ge part e He).
    destruct e; [congruence | simpl in *; lia].
Qed.

Lemma adjustPartitionLength_cases (part : list (list Z)) :
  let ragged_empty := In [] part /\ exists e, In e part /\ e <> [] in
  (part = [] \/ ragged_empty) /\ adjustPartitionLength part = Raise ValueError
  \/ ~ (part = [] \/ ragged_empty) /\ succeeds (adjustPartitionLength part).
Proof.
  intros ragged_empty.
  destruct part as [|e0 part]; [left; split; [now left | reflexivity]|].
  unfold adjustPartitionLength.
  rewrite (py_max_maxLenOf (e0 :: part)) by discriminate. cbn [bind].
  destruct (adjustRows_result (maxLenOf (e0 :: part)) (e0 :: part)
              (maxLenOf_ge (e0 :: part))) as [(Hin & Hn & Hr)|(Hno & Hs)].
  - left. split; [|exact Hr]. right. split; [exact Hin|]. now apply maxLenOf_0.
  - right. split; [|exact Hs]. intros [H|[Hin Hex]]; [discriminate|].
    apply maxLenOf_0 in Hex. tauto.
Qed.

(** C7 as the specification words it fails on the code at two specs that
    it calls malformed: a negative index is copied to the table, and a spec
    whose groups are all empty gives tables of width 0. *)
Lemma normaliser_accepts_malformed :
  (malformed [[-1]]%Z
   /\ adjustPartitionLength [[-1]]%Z = Ok ([[-1]]%Z, [[1%Q]]))
  /\ (malformed [[]]
      /\ adjustPartitionLength [[]] = Ok ([[]], [[]])).
Proof.
  split; split; try reflexivity.
  - right; right. repeat constructor.
  - right; left. now constructor.
Qed.

(** ** The TensorFlow primitives *)

Lemma map_seq_nth (A B : Type) (h : A -> B) (d : A) (l : list A) :
  map (fun m => h (nth m l d)) (seq 0 (length l)) = map h l.
Proof.
  induction l as [|a l IH]; [reflexivity|].
  cbn [length seq map nth]. f_equal.
  rewrite <- seq_shift, map_map. exact IH.
Qed.

Lemma map_seq_nth2 (A B C : Type) (h : A -> B -> C) (d1 : A) (d2 : B)
      (l1 : list A) (l2 : list B) :
  length l2 = length l1 ->
  map (fun m => h (nth m l1 d1) (nth m l2 d2)) (seq 0 (length l1))
  = map (fun p => h (fst p) (snd p)) (combine l1 l2).
Proof.
  revert l2; induction l1 as [|a l1 IH]; intros [|b l2] H; try discriminate.
  - reflexivity.
  - cbn [length seq map nth combine fst snd]. f_equal.
    rewrite <- seq_shift, map_map. apply IH. simpl in H. lia.
Qed.

Lemma rectangular_row (A : Type) (M : nat) (table : list (list A))
      (p : nat) (row : list A) :
  rectangular M table -> nth_error table p = Some row ->
  length row = M /\ p < length table /\ nth p table [] = row.
Proof.
  intros [_ H] Hp. rewrite Forall_forall in H. repeat split.
  - apply H. eapply nth_error_In; eauto.
  - apply nth_error_Some. congruence.
  - now apply nth_error_nth.
Qed.

Lemma constant2_rect (A : Type) (d : A) (M : nat) (table : list (list A)) :
  rectangular M table -> Tf.constant2 d table = Ok (tableTensor d M table).
Proof.
  intros [H1 H2]. unfold Tf.constant2. rewrite H1.
  replace (forallb _ table) with true; [reflexivity|].
  symmetry. apply forallb_forall. intros r Hr. apply Nat.eqb_eq.
  rewrite Forall_forall in H2. auto.
Qed.

Lemma index_ok_iff (N : nat) (j : Z) :
  Tf.index_ok N j = true <-> (0 <= j < Z.of_nat N)%Z.
Proof. unfold Tf.index_ok. rewrite andb_true_iff, Z.leb_le, Z.ltb_lt. tauto. Qed.

Lemma constant_ints_rect (M : nat) (table : list (list Z)) :
  rectangular M table -> concat table <> [] ->
  Tf.constant_ints table = Ok (Tf.Int32, tableTensor 0%Z M table).
Proof.
  intros Hr Hne. unfold Tf.constant_ints.
  rewrite (constant2_rect _ 0%Z M table Hr). cbn [bind].
  destruct (concat table); [congruence | reflexivity].
Qed.

Lemma constant_ints_no_entry (M : nat) (table : list (list Z)) :
  rectangular M table -> concat table = [] ->
  Tf.constant_ints table = Ok (Tf.Float32, tableTensor 0%Z M table).
Proof.
  intros Hr He. unfold Tf.constant_ints.
  rewrite (constant2_rect _ 0%Z M table Hr). cbn [bind]. now rewrite He.
Qed.

Lemma concat_entry (table : list (list Z)) (row : list Z) (j : Z) :
  In row table -> In j row -> concat table <> [].
Proof.
  intros Hrow Hj He. assert (H : In j (concat table)).
  { apply in_concat. eauto. }
  rewrite He in H. destruct H.
Qed.

Lemma gather_traced (A : Type) (x : Tensor3 A) (B N F M : nat)
      (table : list (list Z)) :
  shape3 x = (B, N, F) ->
  Tf.gather_axis1 x (Tf.Int32, tableTensor 0%Z M table)
  = Ok (gathered x M table, Tf.gather_kernel x (tableTensor 0%Z M table)).
Proof.
  intros Hs. unfold Tf.gather_axis1, gathered, tableTensor. cbn [fst snd].
  rewrite Hs. reflexivity.
Qed.

Lemma kernel_cases (A : Type) (x : Tensor3 A) (indices : Tensor2 Z) :
  Tf.gather_kernel x indices = None
  \/ Tf.gather_kernel x indices = Some InvalidArgumentError.
Proof.
  unfold Tf.gather_kernel.
  destruct (shape3 x) as [[d0 d1] d2], (shape2 indices) as [P M].
  destruct (_ || _); auto.
Qed.

Lemma kernel_same_shape (A : Type) (x y : Tensor3 A) (indices : Tensor2 Z) :
  shape3 y = shape3 x -> Tf.gather_kernel y indices = Tf.gather_kernel x indices.
Proof. intros H. unfold Tf.gather_kernel. now rewrite H. Qed.

Lemma kernel_ok (A : Type) (x : Tensor3 A) (B N F M : nat) (table : list (list Z)) :
  shape3 x = (B, N, F) -> rectangular M table -> inBounds N table ->
  Tf.gather_kernel x (tableTensor 0%Z M table) = None.
Proof.
  intros Hs Hr Hb. unfold Tf.gather_kernel, tableTensor.
  rewrite Hs. cbn [shape2 at2].
  replace (forallb _ (seq 0 (length table))) with true;
    [now rewrite orb_true_r|].
  symmetry. apply forallb_forall. intros p Hp. apply forallb_forall. intros m Hm.
  apply in_seq in Hp, Hm. apply index_ok_iff.
  destruct (nth_error table p) as [row|] eqn:E;
    [|apply nth_error_None in E; lia].
  destruct (rectangular_row _ _ _ _ _ Hr E) as (Hl & _ & ->).
  unfold inBounds in Hb. rewrite Forall_forall in Hb.
  specialize (Hb row (nth_error_In _ _ E)). rewrite Forall_forall in Hb.
  apply Hb. apply nth_In. lia.
Qed.

Lemma kernel_empty (A : Type) (x : Tensor3 A) (B N F : nat) (indices : Tensor2 Z) :
  shape3 x = (B, N, F) -> B = 0 \/ F = 0 ->
  Tf.gather_kernel x indices = None.
Proof.
  intros Hs H0. unfold Tf.gather_kernel. rewrite Hs.
  destruct (shape2 indices) as [P M].
  destruct H0 as [-> | ->]; cbn [Nat.eqb orb]; [reflexivity|].
  now rewrite orb_true_r.
Qed.

Lemma kernel_refused (A : Type) (x : Tensor3 A) (B N F M : nat)
      (table : list (list Z)) (row : list Z) (j : Z) :
  shape3 x = (B, N, F) -> rectangular M table -> 0 < B -> 0 < F ->
  In row table -> In j row -> ~ (0 <= j < Z.of_nat N)%Z ->
  Tf.gather_kernel x (tableTensor 0%Z M table) = Some InvalidArgumentError.
Proof.
  intros Hs Hr HB HF Hrow Hj Hbad. unfold Tf.gather_kernel, tableTensor.
  rewrite Hs. cbn [shape2 at2].
  destruct (Nat.eqb_spec B 0) as [|_]; [lia|].
  destruct (Nat.eqb_spec F 0) as [|_]; [lia|]. cbn [orb].
  destruct (forallb _ (seq 0 (length table))) eqn:E; [exfalso|reflexivity].
  rewrite forallb_forall in E.
  destruct (In_nth _ _ [] Hrow) as (p & Hp & Hnth).
  destruct (In_nth _ _ 0%Z Hj) as (m & Hm & Hnth').
  assert (Hl : length row = M).
  { destruct Hr as [_ Hr]. rewrite Forall_forall in Hr. auto. }
  specialize (E p ltac:(apply in_seq; lia)). rewrite forallb_forall in E.
  specialize (E m ltac:(apply in_seq; lia)).
  rewrite Hnth, Hnth' in E. apply index_ok_iff in E. contradiction.
Qed.

Lemma bdim_same (a : nat) : Tf.bdim a a = Ok a.
Proof. unfold Tf.bdim. now rewrite Nat.eqb_refl. Qed.

Lemma bdim_1_r (a : nat) : Tf.bdim a 1 = Ok a.
Proof.
  unfold Tf.bdim. destruct (Nat.eqb_spec a 1) as [->|_]; reflexivity.
Qed.

Lemma bidx_lt (d i : nat) : i < d -> Tf.bidx d i = i.
Proof.
  unfold Tf.bidx. destruct (Nat.eqb_spec d 1) as [->|_]; intros H; lia.
Qed.

(** ** The three reductions on a rectangular table *)

Section Pooling.
Variables (x : Tensor3 Q) (B N F M : nat) (table : list (list Z)).
Hypothesis Hshape : shape3 x = (B, N, F).
Hypothesis Hrect : rectangular M table.
Hypothesis Hentries : concat table <> [].
Hypothesis Hbounds : inBounds N table.

Lemma maxPartitionPooling_outcome :
  exists out,
    maxPartitionPooling x table
    = ran (Tf.gather_kernel x (tableTensor 0%Z M table)) out
    /\ shape3 out = (B, length table, F)
    /\ forall b p f row, nth_error table p = Some row ->
         at3 out b p f = groupMax x b f row.
Proof.
  unfold maxPartitionPooling, Tf.function, Tf.gbind, Tf.trace, Tf.built.
  rewrite (constant_ints_rect _ _ Hrect Hentries). cbn [bind].
  rewrite (gather_traced _ x B N F M table Hshape). cbn [bind].
  eexists. split; [destruct (Tf.gather_kernel _ _); reflexivity|].
  unfold Tf.reduce_max_axis2, Tf.reduce_axis2, gathered.
  rewrite Hshape. cbn [shape4 shape3 at3 fst snd]. split; [reflexivity|].
  intros b p f row Hrow.
  destruct (rectangular_row _ _ _ _ _ Hrect Hrow) as (Hl & _ & Hn).
  unfold Tf.along_axis2, groupMax, members. cbn [shape4 at4].
  rewrite Hn, <- Hl. f_equal.
  apply (map_seq_nth _ _ (fun j => at3 x b (Z.to_nat j) f)).
Qed.

Variable ws : list (list Q).
Hypothesis Hwrect : rectangular M ws.
Hypothesis Hwlen : length ws = length table.

Lemma product_ok :
  exists product,
    Tf.multiply4 (gathered x M table) (Tf.reshape_1_2_1 (tableTensor 0%Q M ws))
    = Ok product
    /\ shape4 product = (B, length table, M, F)
    /\ forall b p f row w, b < B -> f < F ->
         nth_error table p = Some row -> nth_error ws p = Some w ->
         Tf.sum_list (Tf.along_axis2 product b p f) = weightedSum x b f row w.
Proof.
  unfold Tf.multiply4, Tf.broadcast4, Tf.reshape_1_2_1, gathered, tableTensor.
  rewrite Hshape, Hwlen. cbn [shape2 shape4 at2 at4 fst snd].
  rewrite bdim_1_r, !bdim_same, bdim_1_r. cbn [bind].
  eexists. split; [reflexivity|]. split; [reflexivity|].
  intros b p f row w Hb Hf Hrow Hw.
  destruct (rectangular_row _ _ _ _ _ Hrect Hrow) as (Hl & Hp & Hn).
  destruct (rectangular_row _ _ _ _ _ Hwrect Hw) as (Hl' & _ & Hn').
  unfold Tf.along_axis2, weightedSum. cbn [shape4 at4].
  rewrite (bidx_lt _ _ Hb), (bidx_lt _ _ Hf), (bidx_lt _ _ Hp).
  rewrite Hn, Hn'. f_equal.
  rewrite <- (map_seq_nth2 _ _ _
                (fun j v => (at3 x b (Z.to_nat j) f * v)%Q) 0%Z 0%Q row w)
    by congruence.
  rewrite Hl. apply map_ext_in. intros m Hm. apply in_seq in Hm.
  rewrite bidx_lt by lia. reflexivity.
Qed.

Lemma sumPartitionPooling_outcome :
  exists out,
    sumPartitionPooling x (tableTensor 0%Q M ws) table
    = ran (Tf.gather_kernel x (tableTensor 0%Z M table)) out
    /\ shape3 out = (B, length table, F)
    /\ forall b p f row w, b < B -> f < F ->
         nth_error table p = Some row -> nth_error ws p = Some w ->
         at3 out b p f = weightedSum x b f row w.
Proof.
  destruct product_ok as (product & Hprod & Hs & Hat).
  unfold sumPartitionPooling, Tf.function, Tf.gbind, Tf.trace, Tf.built.
  rewrite (constant_ints_rect _ _ Hrect Hentries). cbn [bind].
  rewrite (gather_traced _ x B N F M table Hshape). cbn [bind].
  rewrite Hprod. cbn [bind]. eexists.
  split; [destruct (Tf.gather_kernel _ _); reflexivity|].
  unfold Tf.reduce_sum_axis2, Tf.reduce_axis2. rewrite Hs.
  cbn [shape3 at3]. split; [reflexivity|]. exact Hat.
Qed.

Variable sizes : list Q.
Hypothesis Hslen : length sizes = length table.

Lemma averagePartitionPooling_outcome :
  exists out,
    averagePartitionPooling x (tableTensor 0%Q M ws) (Tf.constant1 0%Q sizes) table
    = ran (Tf.gather_kernel x (tableTensor 0%Z M table)) out
    /\ shape3 out = (B, length table, F)
    /\ forall b p f row w, b < B -> f < F ->
         nth_error table p = Some row -> nth_error ws p = Some w ->
         at3 out b p f = (weightedSum x b f row w / nth p sizes 0)%Q.
Proof.
  destruct product_ok as (product & Hprod & Hs & Hat).
  unfold averagePartitionPooling, Tf.function, Tf.gbind, Tf.trace, Tf.built.
  rewrite (constant_ints_rect _ _ Hrect Hentries). cbn [bind].
  rewrite (gather_traced _ x B N F M table Hshape). cbn [bind].
  rewrite Hprod. cbn [bind].
  unfold Tf.divide3, Tf.broadcast3, Tf.reduce_sum_axis2, Tf.reduce_axis2,
    Tf.reshape_1_1_1, Tf.constant1.
  rewrite Hs, Hslen. cbn [shape1 shape3 at1 at3].
  rewrite bdim_1_r, bdim_same, bdim_1_r. cbn [bind].
  eexists. split; [destruct (Tf.gather_kernel _ _); reflexivity|].
  cbn [shape3 at3]. split; [reflexivity|].
  intros b p f row w Hb Hf Hrow Hw.
  destruct (rectangular_row _ _ _ _ _ Hrect Hrow) as (_ & Hp & _).
  rewrite (bidx_lt _ _ Hb), (bidx_lt _ _ Hf), (bidx_lt _ _ Hp).
  now rewrite (Hat b p f row w Hb Hf Hrow Hw).
Qed.

Lemma maxPartitionPooling_ok :
  exists out,
    maxPartitionPooling x table = Ok out
    /\ shape3 out = (B, length table, F)
    /\ forall b p f row, nth_error table p = Some row ->
         at3 out b p f = groupMax x b f row.
Proof.
  destruct maxPartitionPooling_outcome as (out & Hrun & H).
  rewrite (kernel_ok _ x B N F M table Hshape Hrect Hbounds) in Hrun. eauto.
Qed.

Lemma sumPartitionPooling_ok :
  exists out,
    sumPartitionPooling x (tableTensor 0%Q M ws) table = Ok out
    /\ shape3 out = (B, length table, F)
    /\ forall b p f row w, b < B -> f < F ->
         nth_error table p = Some row -> nth_error ws p = Some w ->
         at3 out b p f = weightedSum x b f row w.
Proof.
  destruct sumPartitionPooling_outcome as (out & Hrun & H).
  rewrite (kernel_ok _ x B N F M table Hshape Hrect Hbounds) in Hrun. eauto.
Qed.

Lemma averagePartitionPooling_ok :
  exists out,
    averagePartitionPooling x (tableTensor 0%Q M ws) (Tf.constant1 0%Q sizes) table
    = Ok out
    /\ shape3 out = (B, length table, F)
    /\ forall b p f row w, b < B -> f < F ->
         nth_error table p = Some row -> nth_error ws p = Some w ->
         at3 out b p f = (weightedSum x b f row w / nth p sizes 0)%Q.
Proof.
  destruct averagePartitionPooling_outcome as (out & Hrun & H).
  rewrite (kernel_ok _ x B N F M table Hshape Hrect Hbounds) in Hrun. eauto.
Qed.

End Pooling.

(** ** Padding does not change a sum or a maximum *)

Lemma combine_app_same (A B : Type) (l1 l2 : list A) (w1 w2 : list B) :
  length w1 = length l1 ->
  combine (l1 ++ l2) (w1 ++ w2) = combine l1 w1 ++ combine l2 w2.
Proof.
  revert w1; induction l1 as [|a l1 IH]; intros [|b w1] H; try discriminate.
  - reflexivity.
  - simpl. f_equal. apply IH. simpl in H. lia.
Qed.

Lemma combine_repeat (A B : Type) (a : A) (b : B) (n : nat) :
  combine (repeat a n) (repeat b n) = repeat (a, b) n.
Proof. induction n; simpl; congruence. Qed.

Lemma map_repeat (A B : Type) (h : A -> B) (a : A) (n : nat) :
  map h (repeat a n) = repeat (h a) n.
Proof. induction n; simpl; congruence. Qed.

Lemma combine_ones (A : Type) (l : list A) (h : A -> Q) :
  (Tf.sum_list (map (fun jw => h (fst jw) * snd jw) (combine l (repeat 1 (length l))))
   == Tf.sum_list (map h l))%Q.
Proof.
  induction l as [|a l IH]; simpl; [reflexivity|].
  rewrite IH. ring.
Qed.

Lemma sum_list_split_last (h : Z -> Q) (g : list Z) :
  g <> [] ->
  (Tf.sum_list (map h g)
   == Tf.sum_list (map h (removelast g)) + h (last g 0%Z))%Q.
Proof.
  intros Hg. pose proof (split_last _ 0%Z g Hg) as E.
  set (r := removelast g) in *. set (z := last g 0%Z) in *.
  rewrite E, map_app, sum_list_app. simpl. ring.
Qed.

(** A non-empty group padded to [maxLen]: all members but the last, then
    the last one [maxLen - len + 1] times. *)
Lemma paddedRow_split (maxLen : nat) (g : list Z) :
  g <> [] ->
  paddedRow maxLen g
  = removelast g ++ repeat (last g 0%Z) (maxLen - length g + 1).
Proof.
  intros Hg. unfold paddedRow.
  rewrite (split_last _ 0%Z g Hg) at 1.
  rewrite <- app_assoc. f_equal.
  replace (maxLen - length g + 1) with (S (maxLen - length g)) by lia.
  reflexivity.
Qed.

Lemma weightedSum_padded (x : Tensor3 Q) (b f maxLen : nat) (g : list Z) :
  g <> [] -> length g <= maxLen ->
  (weightedSum x b f (paddedRow maxLen g) (weightRow maxLen (length g))
   == groupSum x b f g)%Q.
Proof.
  intros Hg Hle. unfold weightedSum, groupSum, members, weightRow.
  rewrite (paddedRow_split maxLen g Hg).
  rewrite <- (length_removelast _ g).
  rewrite combine_app_same by now rewrite repeat_length.
  rewrite map_app, sum_list_app, combine_repeat, map_repeat, sum_list_repeat.
  rewrite (combine_ones _ (removelast g) (fun j => at3 x b (Z.to_nat j) f)).
  cbn [fst snd].
  rewrite (sum_list_split_last (fun j => at3 x b (Z.to_nat j) f) g Hg).
  set (v := at3 x b (Z.to_nat (last g 0%Z)) f).
  setoid_replace (inject_Z (Z.of_nat (maxLen - length g + 1))
                  * (v * padWeight (maxLen - length g)))%Q
    with (v * (inject_Z (Z.of_nat (maxLen - length g + 1))
               * padWeight (maxLen - length g)))%Q by ring.
  rewrite padWeight_total. ring.
Qed.

Lemma Qmax_same (q : Q) : Qmax q q = q.
Proof.
  unfold Qmax, GenericMinMax.gmax.
  now rewrite (proj1 (Qeq_alt q q) (Qeq_refl q)).
Qed.

Lemma max_list_repeat (q : Q) (n : nat) :
  Tf.max_list (repeat q (S n)) = Fin q.
Proof.
  induction n as [|n IH]; [reflexivity|].
  change (repeat q (S (S n))) with (q :: repeat q (S n)).
  cbn [Tf.max_list fold_right]. fold (Tf.max_list (repeat q (S n))).
  rewrite IH. cbn [xmax]. now rewrite Qmax_same.
Qed.

Lemma max_list_padded (h : Z -> Q) (g : list Z) (k : nat) :
  g <> [] ->
  Tf.max_list (map h (g ++ repeat (last g 0%Z) k)) = Tf.max_list (map h g).
Proof.
  induction g as [|a [|c g] IH]; intros Hg; [congruence | |].
  - cbn [last app map]. rewrite map_repeat.
    change (h a :: repeat (h a) k) with (repeat (h a) (S k)).
    now rewrite max_list_repeat.
  - change (last (a :: c :: g) 0%Z) with (last (c :: g) 0%Z).
    change ((a :: c :: g) ++ repeat (last (c :: g) 0%Z) k)
      with (a :: ((c :: g) ++ repeat (last (c :: g) 0%Z) k)).
    cbn [map Tf.max_list fold_right].
    change (fold_right (fun q acc => xmax (Fin q) acc) NegInf
              (map h ((c :: g) ++ repeat (last (c :: g) 0%Z) k)))
      with (Tf.max_list (map h ((c :: g) ++ repeat (last (c :: g) 0%Z) k))).
    rewrite IH by discriminate. reflexivity.
Qed.

(** ** The tables of a spec that the normaliser accepts *)

Lemma inBounds_padded (N maxLen : nat) (part : list (list Z)) :
  Forall (fun e => e <> []) part ->
  inBounds N part -> inBounds N (map (paddedRow maxLen) part).
Proof.
  unfold inBounds. intros Hne Hb. apply Forall_map.
  rewrite Forall_forall in *. intros e He. specialize (Hb e He).
  unfold paddedRow. apply Forall_app. split; [exact Hb|].
  apply Forall_forall. intros j Hj. apply repeat_spec in Hj. subst j.
  rewrite Forall_forall in Hb. apply Hb. apply last_in. now apply Hne.
Qed.

Lemma rectangular_map (A B : Type) (h : list A -> list B) (M : nat)
      (part : list (list A)) :
  part <> [] -> (forall e, In e part -> length (h e) = M) ->
  rectangular M (map h part).
Proof.
  intros Hne H. split.
  - destruct part as [|e part]; [congruence|]. simpl. apply H. now left.
  - apply Forall_map, Forall_forall. exact H.
Qed.

Lemma valid_tables (part : list (list Z)) :
  validSpec part ->
  rectangular (maxLenOf part) (map (paddedRow (maxLenOf part)) part)
  /\ rectangular (maxLenOf part)
       (map (fun e => weightRow (maxLenOf part) (length e)) part).
Proof.
  intros Hv. split; apply rectangular_map; try apply Hv; intros e He.
  - apply paddedRow_length. now apply maxLenOf_ge.
  - apply weightRow_length. now apply validSpec_in.
Qed.

Lemma valid_entries (maxLen : nat) (part : list (list Z)) :
  validSpec part -> concat (map (paddedRow maxLen) part) <> [].
Proof.
  intros [Hne Hall]. destruct part as [|e part]; [congruence|].
  inversion Hall as [|e' part' He _]; subst.
  destruct e as [|j e]; [congruence|]. discriminate.
Qed.

(** ** The layers on a valid spec *)

Lemma PartitionPooling_init_valid (part : list (list Z)) :
  validSpec part ->
  PartitionPooling_init part
  = Ok (mkPartitionPooling part
          (map (paddedRow (maxLenOf part)) part)
          (map (fun e => weightRow (maxLenOf part) (length e)) part)).
Proof.
  intros Hv. unfold PartitionPooling_init.
  now rewrite (adjustPartitionLength_valid part Hv).
Qed.

Lemma nth_error_tables (part : list (list Z)) (i : nat) (g : list Z) :
  nth_error part i = Some g ->
  nth_error (map (paddedRow (maxLenOf part)) part) i
  = Some (paddedRow (maxLenOf part) g)
  /\ nth_error (map (fun e => weightRow (maxLenOf part) (length e)) part) i
     = Some (weightRow (maxLenOf part) (length g)).
Proof. intros H. now rewrite !nth_error_map, H. Qed.

(** ** Sum pooling (C1) *)

(** C1.  For a valid partition spec and a feature tensor of shape
    (batch, nodes, features) whose node axis covers every index of the spec,
    the sum layer is built and its call returns a tensor in which, for every
    group [i], batch element [b] and feature [f], the entry [b, i, f] is the
    unweighted sum of [tensor[b, j, f]] over the indices [j] of group [i] as
    given (with their repetitions), whatever the padding of the row. *)
Theorem sum_pooling_is_unweighted_group_sum
        (part : list (list Z)) (x : Tensor3 Q) (B N F : nat) :
  validSpec part -> shape3 x = (B, N, F) -> inBounds N part ->
  exists self out,
    SumPartitionPooling.init part = Ok self
    /\ SumPartitionPooling.call self x = Ok out
    /\ forall i g b f, nth_error part i = Some g -> b < B -> f < F ->
         (at3 out b i f == groupSum x b f g)%Q.
Proof.
  intros Hv Hs Hb. destruct (valid_tables part Hv) as [Hr Hw].
  unfold SumPartitionPooling.init.
  rewrite (PartitionPooling_init_valid part Hv). cbn [bind countWeights].
  rewrite (constant2_rect _ 0%Q _ _ Hw). cbn [bind].
  destruct (sumPartitionPooling_ok x B N F (maxLenOf part) _ Hs Hr
              (valid_entries _ part Hv)
              (inBounds_padded N _ part (proj2 Hv) Hb) _ Hw)
    as (out & Hrun & _ & Hat); [now rewrite !length_map|].
  eexists _, out. split; [reflexivity|]. split; [exact Hrun|].
  intros i g b f Hg Hlt Hlt'.
  destruct (nth_error_tables part i g Hg) as [H1 H2].
  rewrite (Hat b i f _ _ Hlt Hlt' H1 H2).
  assert (Hin : In g part) by (eapply nth_error_In; eauto).
  destruct (validSpec_in _ _ Hv Hin) as [Hl1 Hl2].
  apply weightedSum_padded; [|exact Hl2].
  destruct g; [simpl in Hl1; lia | discriminate].
Qed.

(** ** Average pooling (C3) *)

(** C3.  For a valid partition spec and an in-bounds feature tensor, the
    average layer is built and its call returns a tensor whose entry
    [b, i, f] is the arithmetic mean of [tensor[b, j, f]] over the indices
    [j] of group [i] as given; the mean mentions group [i] only, not the
    other groups nor the width of the tables.  The divisor
    [partitionSizes[i]] is not zero. *)
Theorem average_pooling_is_group_mean
        (part : list (list Z)) (x : Tensor3 Q) (B N F : nat) :
  validSpec part -> shape3 x = (B, N, F) -> inBounds N part ->
  exists self out,
    AveragePartitionPooling.init part = Ok self
    /\ AveragePartitionPooling.call self x = Ok out
    /\ forall i g, nth_error part i = Some g ->
         ~ (at1 (AveragePartitionPooling.partitionSizes self) i == 0)%Q
         /\ forall b f, b < B -> f < F ->
              (at3 out b i f == groupMean x b f g)%Q.
Proof.
  intros Hv Hs Hb. destruct (valid_tables part Hv) as [Hr Hw].
  unfold AveragePartitionPooling.init.
  rewrite (PartitionPooling_init_valid part Hv). cbn [bind countWeights].
  rewrite (constant2_rect _ 0%Q _ _ Hw). cbn [bind].
  set (cw := map (fun e => weightRow (maxLenOf part) (length e)) part) in *.
  destruct (averagePartitionPooling_ok x B N F (maxLenOf part) _ Hs Hr
              (valid_entries _ part Hv)
              (inBounds_padded N _ part (proj2 Hv) Hb) cw Hw
              ltac:(unfold cw; now rewrite !length_map)
              (Np.sum_last_axis cw)
              ltac:(unfold Np.sum_last_axis, cw; now rewrite !length_map))
    as (out & Hrun & _ & Hat).
  eexists _, out. split; [reflexivity|]. split; [exact Hrun|].
  cbn [AveragePartitionPooling.partitionSizes Tf.constant1 at1].
  intros i g Hg.
  destruct (nth_error_tables part i g Hg) as [H1 H2]. fold cw in H2.
  assert (Hin : In g part) by (eapply nth_error_In; eauto).
  destruct (validSpec_in _ _ Hv Hin) as [Hl1 Hl2].
  assert (Hsz : (nth i (Np.sum_last_axis cw) 0 == inject_Z (Z.of_nat (length g)))%Q).
  { rewrite (nth_error_nth (Np.sum_last_axis cw) i 0%Q
               (x := Np.sum (weightRow (maxLenOf part) (length g)))).
    - now apply weightRow_sum.
    - unfold Np.sum_last_axis. now rewrite nth_error_map, H2. }
  split.
  - rewrite Hsz. intros H0.
    assert (H' : (inject_Z (Z.of_nat (length g)) == inject_Z 0)%Q) by exact H0.
    rewrite inject_Z_injective in H'. lia.
  - intros b f Hlt Hlt'.
    rewrite (Hat b i f _ _ Hlt Hlt' H1 H2). unfold groupMean.
    rewrite Hsz, weightedSum_padded; [reflexivity | | exact Hl2].
    destruct g; [simpl in Hl1; lia | discriminate].
Qed.

(** ** Max pooling (C4) *)

(** C4.  For a non-empty group whose indices are in bounds, max pooling
    over the group padded with [k] copies of its last member returns the
    same tensor entries as max pooling over the group as it is, for every
    batch element and feature: both are the maximum over the members. *)
Theorem max_pooling_ignores_padding
        (x : Tensor3 Q) (B N F : nat) (g : list Z) (k : nat) :
  shape3 x = (B, N, F) -> g <> [] ->
  Forall (fun j => (0 <= j < Z.of_nat N)%Z) g ->
  exists padded plain,
    maxPartitionPooling x [g ++ repeat (last g 0%Z) k] = Ok padded
    /\ maxPartitionPooling x [g] = Ok plain
    /\ shape3 padded = shape3 plain
    /\ forall b f, at3 padded b 0 f = at3 plain b 0 f
                   /\ at3 plain b 0 f = groupMax x b f g.
Proof.
  intros Hs Hg Hb.
  assert (Hb' : inBounds N [g ++ repeat (last g 0%Z) k]).
  { constructor; [|constructor]. apply Forall_app. split; [exact Hb|].
    apply Forall_forall. intros j Hj. apply repeat_spec in Hj. subst j.
    rewrite Forall_forall in Hb. apply Hb. now apply last_in. }
  destruct (maxPartitionPooling_ok x B N F (length (g ++ repeat (last g 0%Z) k))
              [g ++ repeat (last g 0%Z) k] Hs) as (padded & Hrun & Hsh & Hat);
    [split; [reflexivity | now repeat constructor]
    | destruct g; [congruence | discriminate] | exact Hb' |].
  destruct (maxPartitionPooling_ok x B N F (length g) [g] Hs)
    as (plain & Hrun' & Hsh' & Hat');
    [split; [reflexivity | now repeat constructor]
    | destruct g; [congruence | discriminate]
    | constructor; [exact Hb | constructor] |].
  exists padded, plain. split; [exact Hrun|]. split; [exact Hrun'|].
  split; [now rewrite Hsh, Hsh'|].
  intros b f. rewrite (Hat b 0 f _ eq_refl), (Hat' b 0 f _ eq_refl).
  split; [|reflexivity]. unfold groupMax, members.
  now apply max_list_padded.
Qed.

Lemma sum_pooling_witness :
  exists self out,
    SumPartitionPooling.init [[0; 0; 1]; [2]]%Z = Ok self
    /\ SumPartitionPooling.call self (tensorOfList [[[2]; [4]; [1]]]%Q) = Ok out
    /\ (at3 out 0 0 0 == 8)%Q /\ (at3 out 0 1 0 == 1)%Q.
Proof.
  destruct (sum_pooling_is_unweighted_group_sum
              [[0; 0; 1]; [2]]%Z (tensorOfList [[[2]; [4]; [1]]]%Q) 1 3 1)
    as (self & out & Hinit & Hcall & Hat).
  - split; [discriminate | repeat constructor; discriminate].
  - reflexivity.
  - repeat constructor; simpl; lia.
  - exists self, out. split; [exact Hinit|]. split; [exact Hcall|]. split.
    + rewrite (Hat 0 [0; 0; 1]%Z 0 0 eq_refl); [reflexivity | lia | lia].
    + rewrite (Hat 1 [2]%Z 0 0 eq_refl); [reflexivity | lia | lia].
Defined.

Lemma average_pooling_witness :
  exists self out,
    AveragePartitionPooling.init [[0; 0; 1]; [2]]%Z = Ok self
    /\ AveragePartitionPooling.call self (tensorOfList [[[2]; [4]; [1]]]%Q) = Ok out
    /\ (at3 out 0 0 0 == 8 # 3)%Q /\ (at3 out 0 1 0 == 1)%Q.
Proof.
  destruct (average_pooling_is_group_mean
              [[0; 0; 1]; [2]]%Z (tensorOfList [[[2]; [4]; [1]]]%Q) 1 3 1)
    as (self & out & Hinit & Hcall & Hat).
  - split; [discriminate | repeat constructor; discriminate].
  - reflexivity.
  - repeat constructor; simpl; lia.
  - exists self, out. split; [exact Hinit|]. split; [exact Hcall|]. split.
    + destruct (Hat 0 [0; 0; 1]%Z eq_refl) as [_ H].
      rewrite (H 0 0); [reflexivity | lia | lia].
    + destruct (Hat 1 [2]%Z eq_refl) as [_ H].
      rewrite (H 0 0); [reflexivity | lia | lia].
Defined.

Lemma max_pooling_witness :
  exists padded plain,
    maxPartitionPooling (tensorOfList [[[1]; [3]; [5]]]%Q) [[1; 0; 0; 0]]%Z = Ok padded
    /\ maxPartitionPooling (tensorOfList [[[1]; [3]; [5]]]%Q) [[1; 0]]%Z = Ok plain
    /\ at3 padded 0 0 0 = Fin 3 /\ at3 plain 0 0 0 = Fin 3.
Proof.
  destruct (max_pooling_ignores_padding
              (tensorOfList [[[1]; [3]; [5]]]%Q) 1 3 1 [1; 0]%Z 2)
    as (padded & plain & Hp & Hq & _ & Hat).
  - reflexivity.
  - discriminate.
  - repeat constructor; simpl; lia.
  - exists padded, plain. split; [exact Hp|]. split; [exact Hq|].
    destruct (Hat 0 0) as [H1 H2]. rewrite H1, H2. split; reflexivity.
Defined.

(** ** Indices outside the node axis (C8) *)

Lemma product_built (x : Tensor3 Q) (B N F M : nat) (table : list (list Z))
      (w : Tensor2 Q) :
  shape3 x = (B, N, F) -> shape2 w = (length table, M) ->
  exists product,
    Tf.multiply4 (gathered x M table) (Tf.reshape_1_2_1 w) = Ok product
    /\ shape4 product = (B, length table, M, F).
Proof.
  intros Hs Hw. unfold Tf.multiply4, Tf.broadcast4, Tf.reshape_1_2_1, gathered.
  rewrite Hs, Hw. cbn [shape4 fst snd].
  rewrite bdim_1_r, !bdim_same, bdim_1_r. cbn [bind].
  eexists. split; reflexivity.
Qed.

Lemma quotient_built (t : Tensor3 Q) (B P F : nat) (s : Tensor1 Q) :
  shape3 t = (B, P, F) -> shape1 s = P ->
  exists q, Tf.divide3 t (Tf.reshape_1_1_1 s) = Ok q.
Proof.
  intros Ht Hs. unfold Tf.divide3, Tf.broadcast3, Tf.reshape_1_1_1.
  rewrite Ht, Hs. cbn [shape3].
  rewrite bdim_1_r, bdim_same, bdim_1_r. cbn [bind]. eexists. reflexivity.
Qed.

Section Refused.
Variables (x : Tensor3 Q) (B N F M : nat) (table : list (list Z)).
Hypothesis Hshape : shape3 x = (B, N, F).
Hypothesis Hrect : rectangular M table.
Hypothesis HB : 0 < B.
Hypothesis HF : 0 < F.
Variables (row : list Z) (j : Z).
Hypothesis Hrow : In row table.
Hypothesis Hj : In j row.
Hypothesis Hbad : ~ (0 <= j < Z.of_nat N)%Z.

Lemma kernel_refuses :
  Tf.gather_kernel x (tableTensor 0%Z M table) = Some InvalidArgumentError.
Proof. exact (kernel_refused _ x B N F M table row j Hshape Hrect HB HF Hrow Hj Hbad). Qed.

Lemma maxPartitionPooling_refused :
  maxPartitionPooling x table = Raise InvalidArgumentError.
Proof.
  destruct (maxPartitionPooling_outcome x B N F M table Hshape Hrect
              (concat_entry _ _ _ Hrow Hj)) as (out & Hrun & _).
  now rewrite kernel_refuses in Hrun.
Qed.

Lemma sumPartitionPooling_raises (w : Tensor2 Q) :
  raises (sumPartitionPooling x w table).
Proof.
  unfold sumPartitionPooling, Tf.function, Tf.gbind, Tf.trace, Tf.built.
  rewrite (constant_ints_rect _ _ Hrect (concat_entry _ _ _ Hrow Hj)). cbn [bind].
  rewrite (gather_traced _ x B N F M table Hshape). cbn [bind].
  rewrite kernel_refuses.
  destruct (Tf.multiply4 _ _) as [product|e]; cbn [bind]; eexists; reflexivity.
Qed.

Lemma sumPartitionPooling_refused (w : Tensor2 Q) :
  shape2 w = (length table, M) ->
  sumPartitionPooling x w table = Raise InvalidArgumentError.
Proof.
  intros Hw. destruct (product_built x B N F M table w Hshape Hw) as (product & Hp & _).
  unfold sumPartitionPooling, Tf.function, Tf.gbind, Tf.trace, Tf.built.
  rewrite (constant_ints_rect _ _ Hrect (concat_entry _ _ _ Hrow Hj)). cbn [bind].
  rewrite (gather_traced _ x B N F M table Hshape). cbn [bind].
  rewrite kernel_refuses, Hp. reflexivity.
Qed.

Lemma averagePartitionPooling_raises (w : Tensor2 Q) (s : Tensor1 Q) :
  raises (averagePartitionPooling x w s table).
Proof.
  unfold averagePartitionPooling, Tf.function, Tf.gbind, Tf.trace, Tf.built.
  rewrite (constant_ints_rect _ _ Hrect (concat_entry _ _ _ Hrow Hj)). cbn [bind].
  rewrite (gather_traced _ x B N F M table Hshape). cbn [bind].
  rewrite kernel_refuses.
  destruct (Tf.multiply4 _ _) as [product|e]; cbn [bind]; [|eexists; reflexivity].
  destruct (Tf.divide3 _ _) as [q|e]; cbn [bind]; eexists; reflexivity.
Qed.

Lemma averagePartitionPooling_refused (w : Tensor2 Q) (s : Tensor1 Q) :
  shape2 w = (length table, M) -> shape1 s = length table ->
  averagePartitionPooling x w s table = Raise InvalidArgumentError.
Proof.
  intros Hw Hs.
  destruct (product_built x B N F M table w Hshape Hw) as (product & Hp & Hps).
  destruct (quotient_built (Tf.reduce_sum_axis2 product) B (length table) F s)
    as (q & Hq); [|exact Hs|].
  { unfold Tf.reduce_sum_axis2, Tf.reduce_axis2. now rewrite Hps. }
  unfold averagePartitionPooling, Tf.function, Tf.gbind, Tf.trace, Tf.built.
  rewrite (constant_ints_rect _ _ Hrect (concat_entry _ _ _ Hrow Hj)). cbn [bind].
  rewrite (gather_traced _ x B N F M table Hshape). cbn [bind].
  rewrite kernel_refuses, Hp. cbn [bind]. rewrite Hq. reflexivity.
Qed.
End Refused.

(** C8, as the code has it.  For a feature tensor of shape
    (batch, nodes, features) and a rectangular index table.  If the tensor
    has at least one batch element and one feature, the indices are in the
    range of [int64] and some index is at least [nodes], then max pooling
    raises [InvalidArgumentError], the error of the gather kernel; sum and
    average pooling fail for every weight tensor, and with that same error
    when the weights (and the sizes) have the shape of the table.  If every
    index lies in [0, nodes) (and there is one), the gather is built and
    runs, its entry (b, p, m, f) is [tensor[b, j, f]] for the index [j] at
    slot [m] of row [p], and the max pooling call succeeds. *)
Theorem gather_checks_index_against_nodes
        (x : Tensor3 Q) (B N F M : nat) (table : list (list Z)) :
  shape3 x = (B, N, F) -> rectangular M table ->
  (0 < B -> 0 < F -> int64Spec table ->
   (exists row j, In row table /\ In j row /\ (Z.of_nat N <= j)%Z) ->
   maxPartitionPooling x table = Raise InvalidArgumentError
   /\ (forall w,
          raises (sumPartitionPooling x w table)
          /\ (shape2 w = (length table, M) ->
              sumPartitionPooling x w table = Raise InvalidArgumentError))
   /\ (forall w s,
          raises (averagePartitionPooling x w s table)
          /\ (shape2 w = (length table, M) -> shape1 s = length table ->
              averagePartitionPooling x w s table = Raise InvalidArgumentError)))
  /\ (concat table <> [] -> inBounds N table ->
      exists indices g,
        Tf.constant_ints table = Ok indices
        /\ Tf.gather_axis1 x indices = Ok (g, None)
        /\ shape4 g = (B, length table, M, F)
        /\ (forall b p m f row j,
              nth_error table p = Some row -> nth_error row m = Some j ->
              at4 g b p m f = at3 x b (Z.to_nat j) f)
        /\ succeeds (maxPartitionPooling x table)).
Proof.
  intros Hs Hr. split.
  - intros HB HF _ (row & j & Hrow & Hj & Hbad).
    assert (Hbad' : ~ (0 <= j < Z.of_nat N)%Z) by lia.
    split; [|split].
    + exact (maxPartitionPooling_refused x B N F M table Hs Hr HB HF
               row j Hrow Hj Hbad').
    + intros w. split.
      * exact (sumPartitionPooling_raises x B N F M table Hs Hr HB HF
                 row j Hrow Hj Hbad' w).
      * exact (sumPartitionPooling_refused x B N F M table Hs Hr HB HF
                 row j Hrow Hj Hbad' w).
    + intros w s. split.
      * exact (averagePartitionPooling_raises x B N F M table Hs Hr HB HF
                 row j Hrow Hj Hbad' w s).
      * exact (averagePartitionPooling_refused x B N F M table Hs Hr HB HF
                 row j Hrow Hj Hbad' w s).
  - intros He Hb. exists (Tf.Int32, tableTensor 0%Z M table), (gathered x M table).
    split; [now apply constant_ints_rect|].
    split.
    { rewrite (gather_traced _ x B N F M table Hs).
      now rewrite (kernel_ok _ x B N F M table Hs Hr Hb). }
    unfold gathered. rewrite Hs. cbn [shape4 at4 fst snd].
    split; [reflexivity|]. split.
    + intros b p m f row j Hrow Hj.
      destruct (rectangular_row _ _ _ _ _ Hr Hrow) as (_ & _ & ->).
      now rewrite (nth_error_nth row m 0%Z Hj).
    + destruct (maxPartitionPooling_ok x B N F M table Hs Hr He Hb) as (out & H & _).
      now exists out.
Qed.

Lemma gather_checks_witness :
  maxPartitionPooling (tensorOfList [[[1]; [3]; [5]]]%Q) [[0; 1]; [3; 3]]%Z
  = Raise InvalidArgumentError
  /\ succeeds (maxPartitionPooling (tensorOfList [[[1]; [3]; [5]]]%Q)
                                   [[0; 1]; [2; 2]]%Z).
Proof.
  split.
  - destruct (gather_checks_index_against_nodes
                (tensorOfList [[[1]; [3]; [5]]]%Q) 1 3 1 2 [[0; 1]; [3; 3]]%Z)
      as [Hbad _].
    + reflexivity.
    + split; [reflexivity | repeat constructor].
    + apply Hbad.
      * lia.
      * lia.
      * repeat constructor; unfold int64; simpl; lia.
      * exists [3; 3]%Z, 3%Z.
        split; [right; now left|]. split; [now left|]. simpl. lia.
  - destruct (gather_checks_index_against_nodes
                (tensorOfList [[[1]; [3]; [5]]]%Q) 1 3 1 2 [[0; 1]; [2; 2]]%Z)
      as [_ Hgood].
    + reflexivity.
    + split; [reflexivity | repeat constructor].
    + destruct Hgood as (_ & _ & _ & _ & _ & _ & H);
        [discriminate | repeat constructor; simpl; lia | exact H].
Defined.

(** C8 as the specification words it fails on the code at two calls whose
    index table holds the index 3 for a tensor of 3 nodes.  On a tensor with
    an empty batch the call returns (an empty tensor): the kernel copies
    nothing and checks nothing.  With weights that do not have the shape of
    the table the call fails while it is traced, with the [ValueError] of
    the shapes, before any index is looked at. *)
Lemma index_beyond_nodes_without_index_error :
  (shape3 (mkT3 (0, 3, 1) (fun _ _ _ => 0%Q)) = (0, 3, 1)
   /\ exists out,
        maxPartitionPooling (mkT3 (0, 3, 1) (fun _ _ _ => 0%Q)) [[3]]%Z = Ok out
        /\ shape3 out = (0, 1, 1))
  /\ (shape3 (tensorOfList [[[1]; [3]; [5]]]%Q) = (1, 3, 1)
      /\ sumPartitionPooling (tensorOfList [[[1]; [3]; [5]]]%Q)
                             (tableTensor 0%Q 2 [[1; 1]; [1; 1]; [1; 1]]%Q)
                             [[0; 3]; [1; 1]]%Z
         = Raise ValueError).
Proof.
  split; split; try reflexivity.
  eexists. split; reflexivity.
Qed.

(** ** The tables of any spec that the normaliser accepts *)

Lemma adjustRows_all_empty (part : list (list Z)) :
  Forall (fun e => e = []) part ->
  adjustRows 0 part = Ok (map (fun _ => []) part, map (fun _ => []) part).
Proof.
  induction 1 as [|e part -> _ IH]; [reflexivity|].
  cbn [adjustRows]. rewrite adjustRow_empty. cbn [Nat.eqb bind]. now rewrite IH.
Qed.

Lemma maxLenOf_all_empty (part : list (list Z)) :
  Forall (fun e => e = []) part -> maxLenOf part = 0.
Proof.
  unfold maxLenOf. induction 1 as [|e part -> _ IH]; [reflexivity|].
  simpl. exact IH.
Qed.

Lemma accepted_cases (part : list (list Z)) :
  succeeds (adjustPartitionLength part) ->
  validSpec part \/ (part <> [] /\ Forall (fun e => e = []) part).
Proof.
  intros [a Ha].
  destruct (adjustPartitionLength_cases part) as [[_ Hr]|[Hn _]]; [congruence|].
  assert (Hne : part <> []) by tauto.
  destruct (in_dec (list_eq_dec Z.eq_dec) [] part) as [Hin|Hnin].
  - right. split; [exact Hne|]. apply Forall_forall. intros e He.
    destruct e as [|j e]; [reflexivity|]. exfalso. apply Hn. right.
    split; [exact Hin|]. exists (j :: e). split; [exact He | discriminate].
  - left. split; [exact Hne|]. apply Forall_forall. intros e He ->. contradiction.
Qed.

Lemma accepted_tables (part adj : list (list Z)) (cw : list (list Q)) :
  adjustPartitionLength part = Ok (adj, cw) ->
  rectangular (maxLenOf part) adj /\ rectangular (maxLenOf part) cw
  /\ length adj = length part /\ length cw = length part
  /\ forall N, inBounds N part -> inBounds N adj.
Proof.
  intros Hrun.
  destruct (accepted_cases part (ex_intro _ _ Hrun)) as [Hv|[Hne Hall]].
  - rewrite (adjustPartitionLength_valid part Hv) in Hrun.
    injection Hrun as <- <-. destruct (valid_tables part Hv) as [H1 H2].
    repeat split; try apply H1; try apply H2; try now rewrite length_map.
    intros N. apply inBounds_padded, Hv.
  - unfold adjustPartitionLength in Hrun.
    rewrite (py_max_maxLenOf part Hne) in Hrun. cbn [bind] in Hrun.
    rewrite (maxLenOf_all_empty part Hall) in *.
    rewrite (adjustRows_all_empty part Hall) in Hrun. injection Hrun as <- <-.
    assert (Hr : forall A, rectangular 0 (map (fun _ : list Z => @nil A) part)).
    { intros A. apply rectangular_map; [exact Hne | reflexivity]. }
    repeat split; try apply Hr; try now rewrite length_map.
    intros N _. apply Forall_map, Forall_forall. constructor.
Qed.

Lemma inBounds_dec (N : nat) (table : list (list Z)) :
  inBounds N table
  \/ exists row j, In row table /\ In j row /\ ~ (0 <= j < Z.of_nat N)%Z.
Proof.
  unfold inBounds. induction table as [|row table IH]; [left; constructor|].
  destruct IH as [IH|(r & j & Hr & Hj & Hbad)];
    [|right; exists r, j; split; [now right | tauto]].
  assert (Hrow : Forall (fun j => (0 <= j < Z.of_nat N)%Z) row
                 \/ exists j, In j row /\ ~ (0 <= j < Z.of_nat N)%Z).
  { clear. induction row as [|j row IH]; [left; constructor|].
    destruct IH as [IH|(j' & Hj & Hbad)]; [|right; exists j'; split; [now right|tauto]].
    destruct (Z_le_dec 0 j) as [H0|H0], (Z_lt_dec j (Z.of_nat N)) as [H1|H1];
      [left; constructor; [lia | exact IH] | | |];
      right; exists j; (split; [now left | lia]). }
  destruct Hrow as [Hrow|(j & Hj & Hbad)].
  - left. now constructor.
  - right. exists row, j. split; [now left | tauto].
Qed.

Lemma pooling_without_entries
      (x : Tensor3 Q) (M : nat) (table : list (list Z)) :
  rectangular M table -> concat table = [] ->
  maxPartitionPooling x table = Raise TypeError
  /\ (forall w, sumPartitionPooling x w table = Raise TypeError)
  /\ (forall w s, averagePartitionPooling x w s table = Raise TypeError).
Proof.
  intros Hr He.
  unfold maxPartitionPooling, sumPartitionPooling, averagePartitionPooling.
  rewrite (constant_ints_no_entry M table Hr He). cbn [bind].
  unfold Tf.gather_axis1. cbn [fst bind]. auto.
Qed.

(** ** The shape of the pooled tensor (C9) *)

(** C9.  For a feature tensor of shape (batch, nodes, features), any batch
    and feature counts, and a spec of [length part] groups: whatever tensor
    the max, the sum or the average layer returns has shape
    (batch, length part, features); and each of the three returns a tensor
    whenever the spec is valid and its indices are in bounds. *)
Theorem pooled_tensor_shape
        (part : list (list Z)) (x : Tensor3 Q) (B N F : nat) :
  shape3 x = (B, N, F) ->
  (forall out, maxPool part x = Ok out -> shape3 out = (B, length part, F))
  /\ (forall out, sumPool part x = Ok out -> shape3 out = (B, length part, F))
  /\ (forall out, avgPool part x = Ok out -> shape3 out = (B, length part, F))
  /\ (validSpec part -> inBounds N part ->
      succeeds (maxPool part x) /\ succeeds (sumPool part x)
      /\ succeeds (avgPool part x)).
Proof.
  intros Hs.
  assert (Hvalid : validSpec part ->
                   exists adj cw, adjustPartitionLength part = Ok (adj, cw)
                                  /\ concat adj <> []).
  { intros Hv. eexists _, _. split; [now apply adjustPartitionLength_valid|].
    now apply valid_entries. }
  unfold maxPool, sumPool, avgPool, MaxPartitionPooling.init,
    SumPartitionPooling.init, AveragePartitionPooling.init,
    MaxPartitionPooling.call, SumPartitionPooling.call,
    AveragePartitionPooling.call, PartitionPooling_init.
  destruct (adjustPartitionLength part) as [[adj cw]|e] eqn:Hrun; cbn [bind];
    [|split; [discriminate|]; split; [discriminate|]; split; [discriminate|];
      intros Hv; destruct (Hvalid Hv) as (? & ? & ? & _); discriminate].
  destruct (accepted_tables part adj cw Hrun) as (Hr & Hw & Hl & Hl' & Hin).
  cbn [adjustedPartitions countWeights].
  rewrite (constant2_rect _ 0%Q _ _ Hw). cbn [bind].
  cbn [SumPartitionPooling.nodeWeights SumPartitionPooling.base
       AveragePartitionPooling.nodeWeight AveragePartitionPooling.base
       AveragePartitionPooling.partitionSizes adjustedPartitions].
  assert (Hsz : length (Np.sum_last_axis cw) = length adj)
    by (unfold Np.sum_last_axis; rewrite length_map; congruence).
  assert (Hentries : validSpec part -> concat adj <> []).
  { intros Hv. destruct (Hvalid Hv) as (adj' & cw' & H1 & H2). congruence. }
  destruct (list_eq_dec Z.eq_dec (concat adj) []) as [He|He].
  - destruct (pooling_without_entries x _ adj Hr He) as (R1 & R2 & R3).
    rewrite R1, R2, R3.
    split; [discriminate|]. split; [discriminate|]. split; [discriminate|].
    intros Hv _. destruct (Hentries Hv He).
  - destruct (maxPartitionPooling_outcome x B N F _ adj Hs Hr He)
      as (o1 & R1 & S1 & _).
    destruct (sumPartitionPooling_outcome x B N F _ adj Hs Hr He cw Hw
                ltac:(congruence)) as (o2 & R2 & S2 & _).
    destruct (averagePartitionPooling_outcome x B N F _ adj Hs Hr He cw Hw
                ltac:(congruence) _ Hsz) as (o3 & R3 & S3 & _).
    rewrite R1, R2, R3. rewrite Hl in S1, S2, S3.
    split; [|split; [|split]].
    + destruct (Tf.gather_kernel _ _); cbn [ran]; [discriminate|].
      now intros out [= <-].
    + destruct (Tf.gather_kernel _ _); cbn [ran]; [discriminate|].
      now intros out [= <-].
    + destruct (Tf.gather_kernel _ _); cbn [ran]; [discriminate|].
      now intros out [= <-].
    + intros _ Hb. rewrite (kernel_ok _ x B N F _ adj Hs Hr (Hin N Hb)).
      cbn [ran]. repeat split; eexists; reflexivity.
Qed.

Lemma pooled_tensor_shape_witness :
  exists out,
    avgPool [[0; 1]; [2]]%Z
            (tensorOfList [[[1; 7]; [3; 7]; [5; 7]]; [[0; 0]; [0; 0]; [0; 0]]]%Q)
    = Ok out
    /\ shape3 out = (2, 2, 2).
Proof.
  destruct (pooled_tensor_shape
              [[0; 1]; [2]]%Z
              (tensorOfList [[[1; 7]; [3; 7]; [5; 7]]; [[0; 0]; [0; 0]; [0; 0]]]%Q)
              2 3 2 eq_refl) as (_ & _ & Hshape & Hrun).
  destruct Hrun as (_ & _ & [out Hout]).
  - split; [discriminate | repeat constructor; discriminate].
  - repeat constructor; simpl; lia.
  - exists out. split; [exact Hout | exact (Hshape out Hout)].
Defined.

(** ** Linearity of sum pooling (C10) *)

Lemma sum_list_map_add (A : Type) (h k wt : A -> Q) (l : list A) :
  (Tf.sum_list (map (fun a => (h a + k a) * wt a) l)
   == Tf.sum_list (map (fun a => h a * wt a) l)
      + Tf.sum_list (map (fun a => k a * wt a) l))%Q.
Proof.
  induction l as [|a l IH]; simpl.
  - ring.
  - rewrite IH. ring.
Qed.

Lemma sum_list_map_scale (A : Type) (c : Q) (h wt : A -> Q) (l : list A) :
  (Tf.sum_list (map (fun a => c * h a * wt a) l)
   == c * Tf.sum_list (map (fun a => h a * wt a) l))%Q.
Proof.
  induction l as [|a l IH]; simpl.
  - ring.
  - rewrite IH. ring.
Qed.

(** What a successful sum pooling call returns, for any tables. *)
Lemma sumPartitionPooling_inv
      (x : Tensor3 Q) (w : Tensor2 Q) (table : list (list Z)) (out : Tensor3 Q) :
  sumPartitionPooling x w table = Ok out ->
  exists indices product,
    Tf.constant_ints table = Ok (Tf.Int32, indices)
    /\ Tf.gather_kernel x indices = None
    /\ Tf.multiply4
         (mkT4 (fst (fst (shape3 x)), fst (shape2 indices), snd (shape2 indices),
                snd (shape3 x))
               (fun b p m f => at3 x b (Z.to_nat (at2 indices p m)) f))
         (Tf.reshape_1_2_1 w) = Ok product
    /\ out = Tf.reduce_sum_axis2 product.
Proof.
  unfold sumPartitionPooling, Tf.function, Tf.gbind, Tf.trace, Tf.built,
    Tf.gather_axis1.
  destruct (Tf.constant_ints table) as [[[|] indices]|]; cbn [bind fst snd];
    [|discriminate|discriminate].
  remember (Tf.gather_kernel x indices) as k eqn:Hk.
  destruct (shape3 x) as [[d0 d1] d2], (shape2 indices) as [P M] eqn:Hi.
  cbn [bind fst snd].
  destruct (Tf.multiply4 _ _) as [product|] eqn:E; cbn [bind]; [|discriminate].
  destruct k; [discriminate|].
  intros [= <-]. exists indices, product. rewrite Hi. cbn [fst snd]. auto.
Qed.

Lemma sumPartitionPooling_values
      (x : Tensor3 Q) (w : Tensor2 Q) (table : list (list Z)) (out : Tensor3 Q) :
  sumPartitionPooling x w table = Ok out ->
  exists (indices : Tensor2 Z) (d : nat * nat * nat) (M : nat)
         (ib : nat -> nat) (ip : nat -> nat) (im : nat -> nat) (iff : nat -> nat)
         (wt : nat -> nat -> nat -> nat -> Q),
    shape3 out = d
    /\ (forall x', shape3 x' = shape3 x ->
        exists out',
          sumPartitionPooling x' w table = Ok out'
          /\ shape3 out' = d
          /\ forall b p f,
               at3 out' b p f
               = Tf.sum_list
                   (map (fun m => (at3 x' (ib b) (Z.to_nat (at2 indices (ip p) (im m)))
                                       (iff f)
                                   * wt b p m f)%Q) (seq 0 M))).
Proof.
  intros Hrun.
  destruct (sumPartitionPooling_inv x w table out Hrun)
    as (indices & product & Hc & Hchk & Hmul & ->).
  unfold Tf.multiply4, Tf.broadcast4 in Hmul. cbn [shape4 at4] in Hmul.
  destruct (shape4 (Tf.reshape_1_2_1 w)) as [[[y0 y1] y2] y3] eqn:Hw.
  destruct (Tf.bdim _ y0) as [d0|] eqn:E0; cbn [bind] in Hmul; [|discriminate].
  destruct (Tf.bdim _ y1) as [d1|] eqn:E1; cbn [bind] in Hmul; [|discriminate].
  destruct (Tf.bdim _ y2) as [d2|] eqn:E2; cbn [bind] in Hmul; [|discriminate].
  destruct (Tf.bdim _ y3) as [d3|] eqn:E3; cbn [bind] in Hmul; [|discriminate].
  injection Hmul as <-.
  exists indices, (d0, d1, d3), d2,
    (Tf.bidx (fst (fst (shape3 x)))), (Tf.bidx (fst (shape2 indices))),
    (Tf.bidx (snd (shape2 indices))), (Tf.bidx (snd (shape3 x))),
    (fun b p m f => at4 (Tf.reshape_1_2_1 w)
                        (Tf.bidx y0 b) (Tf.bidx y1 p) (Tf.bidx y2 m) (Tf.bidx y3 f)).
  split; [reflexivity|].
  intros x' Hx'.
  unfold sumPartitionPooling, Tf.function, Tf.gbind, Tf.trace, Tf.built,
    Tf.gather_axis1.
  rewrite Hc. cbn [bind fst snd].
  rewrite (kernel_same_shape _ x x' indices Hx'), Hchk, Hx'.
  destruct (shape3 x) as [[a0 a1] a2], (shape2 indices) as [P M].
  cbn [bind fst snd] in *.
  unfold Tf.multiply4, Tf.broadcast4. cbn [shape4 at4]. rewrite Hw.
  rewrite E0, E1, E2, E3. cbn [bind].
  eexists. split; [reflexivity|]. split; reflexivity.
Qed.

(** C10.  For fixed weight and index tables, sum pooling is linear in the
    feature tensor: when the call succeeds on [x] it succeeds on every
    tensor of the shape of [x], and the pooled tensor of [x + y] is entry by
    entry the sum of those of [x] and [y], and that of [c * x] is [c] times
    that of [x]. *)
Theorem sum_pooling_is_linear
        (x y : Tensor3 Q) (c : Q) (w : Tensor2 Q) (table : list (list Z))
        (ox : Tensor3 Q) :
  shape3 y = shape3 x ->
  sumPartitionPooling x w table = Ok ox ->
  exists oy oadd oscale,
    sumPartitionPooling y w table = Ok oy
    /\ sumPartitionPooling (tadd3 x y) w table = Ok oadd
    /\ sumPartitionPooling (tscale3 c x) w table = Ok oscale
    /\ shape3 oy = shape3 ox /\ shape3 oadd = shape3 ox
    /\ shape3 oscale = shape3 ox
    /\ forall b p f,
         (at3 oadd b p f == at3 ox b p f + at3 oy b p f)%Q
         /\ (at3 oscale b p f == c * at3 ox b p f)%Q.
Proof.
  intros Hy Hrun.
  destruct (sumPartitionPooling_values x w table ox Hrun)
    as (indices & d & M & ib & ip & im & iff & wt & Hd & Hall).
  destruct (Hall x eq_refl) as (ox' & Hx1 & _ & Hxat).
  assert (ox' = ox) by congruence. subst ox'.
  destruct (Hall y Hy) as (oy & Hy1 & Hy2 & Hyat).
  destruct (Hall (tadd3 x y) eq_refl) as (oadd & Ha1 & Ha2 & Haat).
  destruct (Hall (tscale3 c x) eq_refl) as (oscale & Hs1 & Hs2 & Hsat).
  exists oy, oadd, oscale. repeat split; try assumption; try congruence.
  - rewrite Haat, Hxat, Hyat. cbn [tadd3 at3].
    apply (sum_list_map_add _
             (fun m => at3 x (ib b) (Z.to_nat (at2 indices (ip p) (im m))) (iff f))
             (fun m => at3 y (ib b) (Z.to_nat (at2 indices (ip p) (im m))) (iff f))
             (fun m => wt b p m f)).
  - rewrite Hsat, Hxat. cbn [tscale3 at3].
    apply (sum_list_map_scale _ c
             (fun m => at3 x (ib b) (Z.to_nat (at2 indices (ip p) (im m))) (iff f))
             (fun m => wt b p m f)).
Qed.

Lemma sum_pooling_linear_witness :
  exists oadd oscale,
    sumPartitionPooling
      (tadd3 (tensorOfList [[[1]; [3]; [5]]]%Q) (tensorOfList [[[2]; [4]; [1]]]%Q))
      (tableTensor 0%Q 2 [[1; 1]; [1 # 2; 1 # 2]]%Q) [[0; 1]; [2; 2]]%Z = Ok oadd
    /\ sumPartitionPooling
         (tscale3 (3 # 1) (tensorOfList [[[1]; [3]; [5]]]%Q))
         (tableTensor 0%Q 2 [[1; 1]; [1 # 2; 1 # 2]]%Q) [[0; 1]; [2; 2]]%Z = Ok oscale
    /\ (at3 oadd 0 0 0 == 10)%Q /\ (at3 oadd 0 1 0 == 6)%Q
    /\ (at3 oscale 0 0 0 == 12)%Q /\ (at3 oscale 0 1 0 == 15)%Q.
Proof.
  destruct (sum_pooling_is_linear
              (tensorOfList [[[1]; [3]; [5]]]%Q) (tensorOfList [[[2]; [4]; [1]]]%Q)
              (3 # 1)%Q (tableTensor 0%Q 2 [[1; 1]; [1 # 2; 1 # 2]]%Q)
              [[0; 1]; [2; 2]]%Z _ eq_refl eq_refl)
    as (oy & oadd & oscale & Hy & Ha & Hs & _ & _ & _ & Hat).
  injection Hy as <-.
  exists oadd, oscale. split; [exact Ha|]. split; [exact Hs|].
  destruct (Hat 0 0 0) as [H1 H2]. destruct (Hat 0 1 0) as [H3 H4].
  rewrite H1, H2, H3, H4. repeat split; reflexivity.
Defined.

(** ** The scenarios of the spec *)

Example scenario_tables :
  adjustPartitionLength [[0; 1]; [2]]%Z
  = Ok ([[0; 1]; [2; 2]]%Z, [[1; 1]; [1 # 2; 1 # 2]]%Q).
Proof. reflexivity. Qed.

Example scenario_max :
  (out <- maxPool [[0; 1]; [2]]%Z (tensorOfList [[[1]; [3]; [5]]]%Q) ;;
   Ok (Tf.to_list3 out))
  = Ok [[[Fin 3]; [Fin 5]]].
Proof. reflexivity. Qed.

Example scenario_sum :
  entries (sumPool [[0; 1]; [2]]%Z (tensorOfList [[[1]; [3]; [5]]]%Q))
  = Ok [[[4]; [5]]]%Q.
Proof. reflexivity. Qed.

Example scenario_average :
  entries (avgPool [[0; 1]; [2]]%Z (tensorOfList [[[1]; [3]; [5]]]%Q))
  = Ok [[[2]; [5]]]%Q.
Proof. reflexivity. Qed.

Example scenario_duplicate_index :
  entries (sumPool [[0; 0; 1]]%Z (tensorOfList [[[2]; [4]; [1]]]%Q)) = Ok [[[8]]]%Q
  /\ entries (avgPool [[0; 0; 1]]%Z (tensorOfList [[[2]; [4]; [1]]]%Q))
     = Ok [[[8 # 3]]]%Q.
Proof. split; reflexivity. Qed.

(** A spec whose groups are all empty passes the normaliser, and the layer
    built from it cannot be called: its index table has no element, so
    [tf.constant] makes it a float tensor, which the gather refuses. *)
Example all_empty_groups :
  adjustPartitionLength [[]; []] = Ok ([[]; []], [[]; []])
  /\ maxPool [[]; []] (tensorOfList [[[1]; [3]; [5]]]%Q) = Raise TypeError.
Proof. split; reflexivity. Qed.

(** An out-of-range index in a spec is found at the call, not by the
    normaliser. *)
Example index_checked_at_call :
  succeeds (SumPartitionPooling.init [[0; 7]]%Z)
  /\ sumPool [[0; 7]]%Z (tensorOfList [[[1]; [3]; [5]]]%Q)
     = Raise InvalidArgumentError.
Proof. split; [eexists|]; reflexivity. Qed.

(* ================================================================== *)
(** * Further properties of the normaliser and of the layers *)

(** ** Specs whose groups have one length *)

Lemma maxLenOf_rect (part : list (list Z)) (M : nat) :
  part <> [] -> rectangular M part -> maxLenOf part = M.
Proof.
  intros Hne [_ Hall]. rewrite Forall_forall in Hall.
  destruct (maxLenOf_attained part Hne) as (e & He & <-). now apply Hall.
Qed.

Lemma adjustRow_full (M : nat) (e : list Z) :
  length e = M -> adjustRow M e = Ok (e, repeat 1%Q M).
Proof.
  intros Hl. destruct e as [|j e].
  - simpl in Hl. subst M. now rewrite adjustRow_empty.
  - rewrite adjustRow_ok; [|discriminate|lia].
    unfold paddedRow. rewrite Hl, Nat.sub_diag, app_nil_r, weightRow_full;
      [reflexivity | simpl in Hl; lia].
Qed.

Lemma adjustRows_full (M : nat) (part : list (list Z)) :
  Forall (fun e => length e = M) part ->
  adjustRows M part = Ok (part, map (fun _ => repeat 1%Q M) part).
Proof.
  induction 1 as [|e part He _ IH]; [reflexivity|].
  cbn [adjustRows]. rewrite (adjustRow_full M e He). cbn [bind]. now rewrite IH.
Qed.

Lemma adjust_rectangular (part : list (list Z)) (M : nat) :
  part <> [] -> rectangular M part ->
  adjustPartitionLength part = Ok (part, map (fun _ => repeat 1%Q M) part).
Proof.
  intros Hne Hr. unfold adjustPartitionLength.
  rewrite (py_max_maxLenOf part Hne), (maxLenOf_rect part M Hne Hr). cbn [bind].
  apply adjustRows_full, Hr.
Qed.

Lemma rectangular_all_empty (part : list (list Z)) :
  Forall (fun e => e = []) part -> rectangular 0 part.
Proof.
  intros Hall. split.
  - destruct Hall as [|e ? -> _]; reflexivity.
  - apply Forall_forall. rewrite Forall_forall in Hall.
    intros e He. now rewrite (Hall e He).
Qed.

Lemma accepted_rows (part adj : list (list Z)) (cw : list (list Q)) :
  adjustPartitionLength part = Ok (adj, cw) ->
  adj = map (paddedRow (maxLenOf part)) part
  /\ (Forall (fun g => g = []) part ->
      Forall (fun r => r = []) adj /\ Forall (fun w => w = []) cw).
Proof.
  intros Hrun.
  destruct (accepted_cases part (ex_intro _ _ Hrun)) as [Hv|[Hne Hall]].
  - rewrite (adjustPartitionLength_valid part Hv) in Hrun.
    injection Hrun as <- <-. split; [reflexivity|]. intros Hall.
    destruct Hv as [Hne Hv]. destruct part as [|e part]; [congruence|].
    inversion Hv; inversion Hall; subst. congruence.
  - rewrite (adjust_rectangular part 0 Hne (rectangular_all_empty part Hall))
      in Hrun.
    injection Hrun as <- <-. rewrite (maxLenOf_all_empty part Hall). split.
    + clear Hne. induction Hall as [|e part -> _ IH]; [reflexivity|].
      cbn [map]. now rewrite <- IH.
    + intros _. split; [exact Hall|].
      apply Forall_map, Forall_forall. reflexivity.
Qed.

(** ** When the normaliser raises, and what it does with an index (C7) *)

(** C7, as the code has it.  For a partition spec of integer indices in the
    range of [int64].  The normaliser raises exactly when the spec has no
    group, or has an empty group next to a non-empty one; the exception is
    then [ValueError] and no tables are returned.  On every other spec it
    returns tables, and the index table holds every group as it is, its
    negative indices included, followed by copies of its last index: no index
    is rejected.  A spec whose groups are all empty gives tables of width
    0. *)
Theorem normaliser_raises_iff (part : list (list Z)) :
  int64Spec part ->
  let ragged_empty := In [] part /\ exists e, In e part /\ e <> [] in
  (raises (adjustPartitionLength part) <-> part = [] \/ ragged_empty)
  /\ (forall e, adjustPartitionLength part = Raise e -> e = ValueError)
  /\ (raises (adjustPartitionLength part) ->
      forall tables, adjustPartitionLength part <> Ok tables)
  /\ (~ (part = [] \/ ragged_empty) ->
      exists adj cw,
        adjustPartitionLength part = Ok (adj, cw)
        /\ adj = map (fun g => g ++ repeat (last g 0%Z) (maxLenOf part - length g))
                     part
        /\ (Forall (fun g => g = []) part ->
            Forall (fun r => r = []) adj /\ Forall (fun w => w = []) cw)).
Proof.
  intros _ ragged_empty.
  pose proof (adjustPartitionLength_cases part) as Hcases.
  cbv zeta in Hcases. fold ragged_empty in Hcases.
  repeat split.
  - intros [e He]. destruct Hcases as [[H _]|[_ [a Ha]]]; [exact H | congruence].
  - intros H. destruct Hcases as [[_ Hr]|[Hn _]]; [eexists; eauto | contradiction].
  - intros e He. destruct Hcases as [[_ Hr]|[_ [a Ha]]]; congruence.
  - intros [e He] tables. congruence.
  - intros Hn. destruct Hcases as [[H _]|[_ [[adj cw] Hrun]]]; [contradiction|].
    exists adj, cw. split; [exact Hrun|].
    exact (accepted_rows part adj cw Hrun).
Qed.

Lemma normaliser_raises_witness :
  adjustPartitionLength [[]; [4]]%Z = Raise ValueError
  /\ exists cw, adjustPartitionLength [[-1; 4]; [-7]]%Z
                = Ok ([[-1; 4]; [-7; -7]]%Z, cw).
Proof.
  split.
  - destruct (normaliser_raises_iff [[]; [4]]%Z) as (H & Hexn & _).
    + repeat constructor; unfold int64; simpl; lia.
    + destruct (proj2 H) as [e He].
      * right. split; [now left|]. exists [4]%Z. split; [right; now left|].
        discriminate.
      * rewrite He. f_equal. exact (Hexn e He).
  - destruct (normaliser_raises_iff [[-1; 4]; [-7]]%Z) as (_ & _ & _ & H).
    + repeat constructor; unfold int64; simpl; lia.
    + destruct H as (adj & cw & Hrun & -> & _).
      * intros [H|[H _]]; [discriminate|].
        destruct H as [H|[H|[]]]; discriminate.
      * exists cw. exact Hrun.
Defined.

(** ** A spec of one length comes back as it is *)

(** X1.  A spec with at least one group whose groups all have the same
    length (and whose indices are in the range of [int64]) comes back from
    the normaliser as it is, with a weight table of the same shape that
    holds 1 everywhere: nothing is padded and no weight is reduced. *)
Theorem equal_length_spec_is_unchanged (part : list (list Z)) (M : nat) :
  part <> [] -> rectangular M part -> int64Spec part ->
  exists cw,
    adjustPartitionLength part = Ok (part, cw)
    /\ length cw = length part
    /\ Forall (fun w => w = repeat 1%Q M) cw.
Proof.
  intros Hne Hr _. exists (map (fun _ => repeat 1%Q M) part).
  split; [now apply adjust_rectangular|]. split; [now rewrite length_map|].
  apply Forall_map, Forall_forall. reflexivity.
Qed.

Lemma equal_length_spec_witness :
  exists cw,
    adjustPartitionLength [[3; 1]; [0; 0]; [2; 5]]%Z = Ok ([[3; 1]; [0; 0]; [2; 5]]%Z, cw)
    /\ Forall (fun w => w = [1; 1]%Q) cw.
Proof.
  destruct (equal_length_spec_is_unchanged [[3; 1]; [0; 0]; [2; 5]]%Z 2)
    as (cw & Hrun & _ & Hw).
  - discriminate.
  - split; [reflexivity | repeat constructor].
  - repeat constructor; unfold int64; simpl; lia.
  - exists cw. split; [exact Hrun | exact Hw].
Defined.

(** X2.  The normaliser is idempotent on the index table: whenever it
    returns tables for a spec, running it again on the index table returns
    that same index table, now with all weights 1.  (So the weights cannot
    be recovered from the index table: they need the raw spec.) *)
Theorem normalising_twice_keeps_the_index_table
        (part adj : list (list Z)) (cw : list (list Q)) :
  adjustPartitionLength part = Ok (adj, cw) ->
  adjustPartitionLength adj
  = Ok (adj, map (fun _ => repeat 1%Q (maxLenOf part)) adj).
Proof.
  intros Hrun.
  destruct (accepted_tables part adj cw Hrun) as (Hr & _ & Hl & _ & _).
  apply adjust_rectangular; [|exact Hr].
  intros ->. destruct part; [discriminate Hrun | discriminate Hl].
Qed.

Lemma normalising_twice_witness :
  adjustPartitionLength [[0; 1; 4]; [2; 2; 2]; [3; 5; 5]]%Z
  = Ok ([[0; 1; 4]; [2; 2; 2]; [3; 5; 5]]%Z, [[1; 1; 1]; [1; 1; 1]; [1; 1; 1]]%Q).
Proof.
  exact (normalising_twice_keeps_the_index_table
           [[0; 1; 4]; [2]; [3; 5]]%Z _ _ eq_refl).
Defined.

(** ** The range of the weights *)

Lemma padWeight_range (k : nat) : (0 < padWeight k /\ padWeight k <= 1)%Q.
Proof.
  unfold padWeight.
  assert (Hpos : (0 < inject_Z (Z.of_nat k + 1))%Q).
  { change 0%Q with (inject_Z 0). rewrite <- Zlt_Qlt. lia. }
  split.
  - apply Qlt_shift_div_l; [exact Hpos|]. rewrite Qmult_0_l. reflexivity.
  - apply Qle_shift_div_r; [exact Hpos|]. rewrite Qmult_1_l.
    change 1%Q with (inject_Z 1). rewrite <- Zle_Qle. lia.
Qed.

Lemma weightRow_range (maxLen len : nat) :
  Forall (fun w => (0 < w /\ w <= 1)%Q) (weightRow maxLen len).
Proof.
  unfold weightRow. apply Forall_app. split; apply Forall_forall; intros w Hw;
    apply repeat_spec in Hw; subst w.
  - split; [reflexivity | apply Qle_refl].
  - apply padWeight_range.
Qed.

(** X3.  Every weight the normaliser returns is positive and at most 1:
    no slot is dropped from a sum and none counts more than once. *)
Theorem weights_are_in_unit_interval
        (part adj : list (list Z)) (cw : list (list Q)) :
  adjustPartitionLength part = Ok (adj, cw) ->
  Forall (Forall (fun w => (0 < w /\ w <= 1)%Q)) cw.
Proof.
  intros Hrun.
  destruct (accepted_cases part (ex_intro _ _ Hrun)) as [Hv|[Hne Hall]].
  - rewrite (adjustPartitionLength_valid part Hv) in Hrun.
    injection Hrun as _ <-. apply Forall_map, Forall_forall. intros e _.
    apply weightRow_range.
  - rewrite (adjust_rectangular part 0 Hne) in Hrun.
    + injection Hrun as _ <-. apply Forall_map, Forall_forall. constructor.
    + split.
      * destruct Hall as [|e ? -> _]; reflexivity.
      * apply Forall_forall. rewrite Forall_forall in Hall.
        intros e He. now rewrite (Hall e He).
Qed.

Lemma weights_in_unit_interval_witness :
  Forall (Forall (fun w => (0 < w /\ w <= 1)%Q)) [[1; 1; 1]; [1 # 3; 1 # 3; 1 # 3]]%Q.
Proof.
  exact (weights_are_in_unit_interval [[0; 1; 4]; [2]]%Z _ _ eq_refl).
Defined.

(** ** Reordering the groups *)

Lemma maxLenOf_perm (part part' : list (list Z)) :
  Permutation part part' -> maxLenOf part = maxLenOf part'.
Proof.
  unfold maxLenOf. induction 1; simpl; lia.
Qed.

Lemma combine_map_same (A B C : Type) (h : A -> B) (k : A -> C) (l : list A) :
  combine (map h l) (map k l) = map (fun a => (h a, k a)) l.
Proof. induction l; simpl; congruence. Qed.

Lemma combine_map_r (A B : Type) (h : A -> B) (l : list A) :
  combine l (map h l) = map (fun a => (a, h a)) l.
Proof. induction l; simpl; congruence. Qed.

(** The rows of the two tables are a function of the group, fixed by the
    spec up to the order of its groups. *)
Lemma rows_follow_groups (part adj : list (list Z)) (cw : list (list Q)) :
  adjustPartitionLength part = Ok (adj, cw) ->
  exists fn : list Z -> list Z * list Q,
    combine adj cw = map fn part
    /\ forall part', Permutation part part' ->
         exists adj' cw',
           adjustPartitionLength part' = Ok (adj', cw')
           /\ length adj' = length part'
           /\ combine adj' cw' = map fn part'.
Proof.
  intros Hrun.
  destruct (accepted_cases part (ex_intro _ _ Hrun)) as [Hv|[Hne Hall]].
  - rewrite (adjustPartitionLength_valid part Hv) in Hrun.
    injection Hrun as <- <-.
    exists (fun e => (paddedRow (maxLenOf part) e,
                      weightRow (maxLenOf part) (length e))).
    split; [apply combine_map_same|].
    intros part' Hp.
    assert (Hv' : validSpec part').
    { destruct Hv as [Hne Hall]. split.
      - intros ->. apply Permutation_sym, Permutation_nil in Hp. contradiction.
      - exact (Permutation_Forall Hp Hall). }
    eexists _, _. rewrite (adjustPartitionLength_valid part' Hv').
    rewrite <- (maxLenOf_perm part part' Hp).
    split; [reflexivity|]. split; [now rewrite length_map|].
    apply combine_map_same.
  - assert (Hrect : forall l, l <> [] -> Forall (fun e : list Z => e = []) l ->
                              rectangular 0 l).
    { intros l _ Hl. split.
      - destruct Hl as [|e ? -> _]; reflexivity.
      - apply Forall_forall. rewrite Forall_forall in Hl.
        intros e He. now rewrite (Hl e He). }
    rewrite (adjust_rectangular part 0 Hne (Hrect part Hne Hall)) in Hrun.
    injection Hrun as <- <-.
    exists (fun e => (e, [])).
    split; [apply combine_map_r|].
    intros part' Hp.
    assert (Hne' : part' <> []).
    { intros ->. apply Permutation_sym, Permutation_nil in Hp. contradiction. }
    eexists _, _.
    rewrite (adjust_rectangular part' 0 Hne'
               (Hrect part' Hne' (Permutation_Forall Hp Hall))).
    split; [reflexivity|]. split; [reflexivity|]. apply combine_map_r.
Qed.

(** X4.  Reordering the groups of a spec reorders the rows of both tables
    in the same way and changes nothing else: the normaliser accepts the
    reordered spec when it accepts the original, and the triples (group, row
    of the index table, row of the weight table) of the two runs are a
    permutation of each other.  A spec that raises still raises when its
    groups are reordered. *)
Theorem rows_move_with_their_groups (part part' : list (list Z)) :
  Permutation part part' ->
  (forall adj cw,
      adjustPartitionLength part = Ok (adj, cw) ->
      exists adj' cw',
        adjustPartitionLength part' = Ok (adj', cw')
        /\ Permutation (combine part (combine adj cw))
                       (combine part' (combine adj' cw')))
  /\ (raises (adjustPartitionLength part) -> raises (adjustPartitionLength part')).
Proof.
  intros Hp. split.
  - intros adj cw Hrun.
    destruct (rows_follow_groups part adj cw Hrun) as (fn & Hfn & Hall).
    destruct (Hall part' Hp) as (adj' & cw' & Hrun' & _ & Hfn').
    exists adj', cw'. split; [exact Hrun'|].
    rewrite Hfn, Hfn', !combine_map_r. now apply Permutation_map.
  - intros [e He].
    destruct (adjustPartitionLength part') as [[adj' cw']|e'] eqn:Hrun';
      [|now exists e'].
    destruct (rows_follow_groups part' adj' cw' Hrun') as (fn & _ & Hall).
    destruct (Hall part (Permutation_sym Hp)) as (? & ? & Hrun & _). congruence.
Qed.

Lemma rows_move_witness :
  exists adj' cw',
    adjustPartitionLength [[2]; [0; 1; 4]]%Z = Ok (adj', cw')
    /\ Permutation
         [([0; 1; 4]%Z, ([0; 1; 4]%Z, [1; 1; 1]%Q));
          ([2]%Z, ([2; 2; 2]%Z, [1 # 3; 1 # 3; 1 # 3]%Q))]
         (combine [[2]; [0; 1; 4]]%Z (combine adj' cw')).
Proof.
  destruct (rows_move_with_their_groups [[0; 1; 4]; [2]]%Z [[2]; [0; 1; 4]]%Z)
    as [H _]; [apply perm_swap|].
  exact (H _ _ eq_refl).
Defined.

(** ** Building the layers *)

(** X5.  The three constructors fail exactly where the normaliser fails,
    with its exception: turning the weight table into a tensor never fails.
    When the normaliser returns tables, each layer holds the raw spec and
    these tables, the weight tensor has as many rows as there are groups
    and the width of the tables, and [partitionSizes] has one entry per
    group. *)
Theorem layers_are_built_when_normaliser_accepts (part : list (list Z)) :
  (forall e, adjustPartitionLength part = Raise e ->
             MaxPartitionPooling.init part = Raise e
             /\ SumPartitionPooling.init part = Raise e
             /\ AveragePartitionPooling.init part = Raise e)
  /\ (forall adj cw,
         adjustPartitionLength part = Ok (adj, cw) ->
         MaxPartitionPooling.init part = Ok (mkPartitionPooling part adj cw)
         /\ (exists W,
                SumPartitionPooling.init part
                = Ok (SumPartitionPooling.mk (mkPartitionPooling part adj cw) W)
                /\ shape2 W = (length part, maxLenOf part))
         /\ (exists W S,
                AveragePartitionPooling.init part
                = Ok (AveragePartitionPooling.mk (mkPartitionPooling part adj cw) W S)
                /\ shape2 W = (length part, maxLenOf part)
                /\ shape1 S = length part)).
Proof.
  unfold MaxPartitionPooling.init, SumPartitionPooling.init,
    AveragePartitionPooling.init, PartitionPooling_init.
  split.
  - intros e ->. cbn [bind]. auto.
  - intros adj cw Hrun. rewrite Hrun. cbn [bind countWeights].
    destruct (accepted_tables part adj cw Hrun) as (_ & Hw & _ & Hl & _).
    rewrite (constant2_rect _ 0%Q _ _ Hw). cbn [bind].
    split; [reflexivity|]. split.
    + eexists. split; [reflexivity|]. cbn [tableTensor shape2]. now rewrite Hl.
    + eexists _, _. split; [reflexivity|].
      cbn [tableTensor shape2 Tf.constant1 shape1].
      unfold Np.sum_last_axis. now rewrite length_map, Hl.
Qed.

(** ** The config of a layer *)

Lemma dict_get_set_same (V : Type) (k : String.string) (v : V) (d : dict V) :
  dict_get k (dict_set k v d) = Some v.
Proof.
  induction d as [|[k' v'] d IH]; simpl.
  - now rewrite String.eqb_refl.
  - destruct (String.eqb k k') eqn:E; simpl; rewrite E; [reflexivity | exact IH].
Qed.

Lemma dict_get_set_other (V : Type) (k k0 : String.string) (v : V) (d : dict V) :
  k0 <> k -> dict_get k0 (dict_set k v d) = dict_get k0 d.
Proof.
  intros Hne. induction d as [|[k' v'] d IH]; simpl.
  - destruct (String.eqb_spec k0 k); [contradiction | reflexivity].
  - destruct (String.eqb_spec k k') as [<-|Hk]; simpl.
    + destruct (String.eqb_spec k0 k); [contradiction | reflexivity].
    + destruct (String.eqb k0 k'); [reflexivity | exact IH].
Qed.

(** X6.  The config of a layer holds, under "partitions", the raw spec the
    layer was built from (not the padded table), whatever the base config
    holds, and leaves every other key of the base config as it is; a layer
    built from the spec found in the config is the layer itself. *)
Theorem config_rebuilds_the_layer
        (V : Type) (part : list (list Z)) (self : PartitionPooling)
        (base_config : dict (configValue V)) :
  PartitionPooling_init part = Ok self ->
  dict_get "partitions"%string (get_config self base_config)
  = Some (PartitionsValue part)
  /\ (forall k, k <> "partitions"%string ->
                dict_get k (get_config self base_config) = dict_get k base_config)
  /\ (forall p, dict_get "partitions"%string (get_config self base_config)
                = Some (PartitionsValue p) ->
                PartitionPooling_init p = Ok self).
Proof.
  intros Hinit.
  assert (Hp : partitions self = part).
  { unfold PartitionPooling_init in Hinit.
    destruct (adjustPartitionLength part) as [[adj cw]|]; [|discriminate].
    cbn [bind] in Hinit. now injection Hinit as <-. }
  unfold get_config. rewrite Hp, dict_get_set_same.
  split; [reflexivity|]. split.
  - intros k Hk. now apply dict_get_set_other.
  - intros p [= <-]. exact Hinit.
Qed.

Lemma config_rebuilds_witness :
  exists self,
    PartitionPooling_init [[0; 1]; [2]]%Z = Ok self
    /\ dict_get "partitions"%string
         (get_config self [("name"%string, KerasValue 0);
                           ("partitions"%string, KerasValue 1)])
       = Some (PartitionsValue [[0; 1]; [2]]%Z)
    /\ adjustedPartitions self = [[0; 1]; [2; 2]]%Z.
Proof.
  eexists. split; [reflexivity|]. split; [|reflexivity].
  exact (proj1 (config_rebuilds_the_layer nat [[0; 1]; [2]]%Z _ _ eq_refl)).
Defined.

(* ================================================================== *)
(** * Further properties of the pooling layers *)

(** ** What the three layers return on a valid spec *)

Section LayerValues.
Variables (part : list (list Z)) (x : Tensor3 Q) (B N F : nat).
Hypothesis Hvalid : validSpec part.
Hypothesis Hshape : shape3 x = (B, N, F).
Hypothesis Hbounds : inBounds N part.

Lemma maxPool_value :
  exists out,
    maxPool part x = Ok out
    /\ shape3 out = (B, length part, F)
    /\ forall i g b f, nth_error part i = Some g ->
         at3 out b i f = groupMax x b f g.
Proof.
  destruct (valid_tables part Hvalid) as [Hr _].
  unfold maxPool, MaxPartitionPooling.init, MaxPartitionPooling.call.
  rewrite (PartitionPooling_init_valid part Hvalid). cbn [bind adjustedPartitions].
  destruct (maxPartitionPooling_ok x B N F (maxLenOf part) _ Hshape Hr
              (valid_entries _ part Hvalid)
              (inBounds_padded N _ part (proj2 Hvalid) Hbounds))
    as (out & Hrun & Hs & Hat).
  exists out. split; [exact Hrun|]. split; [now rewrite Hs, length_map|].
  intros i g b f Hg.
  destruct (nth_error_tables part i g Hg) as [H1 _].
  rewrite (Hat b i f _ H1). unfold groupMax, members, paddedRow.
  apply max_list_padded.
  assert (Hin : In g part) by (eapply nth_error_In; eauto).
  destruct (validSpec_in _ _ Hvalid Hin) as [Hl _].
  destruct g; [simpl in Hl; lia | discriminate].
Qed.

Lemma sumPool_value :
  exists out,
    sumPool part x = Ok out
    /\ shape3 out = (B, length part, F)
    /\ forall i g b f, nth_error part i = Some g -> b < B -> f < F ->
         (at3 out b i f == groupSum x b f g)%Q.
Proof.
  destruct (valid_tables part Hvalid) as [Hr Hw].
  unfold sumPool, SumPartitionPooling.init, SumPartitionPooling.call.
  rewrite (PartitionPooling_init_valid part Hvalid). cbn [bind countWeights].
  rewrite (constant2_rect _ 0%Q _ _ Hw).
  cbn [bind SumPartitionPooling.nodeWeights SumPartitionPooling.base
       adjustedPartitions].
  destruct (sumPartitionPooling_ok x B N F (maxLenOf part) _ Hshape Hr
              (valid_entries _ part Hvalid)
              (inBounds_padded N _ part (proj2 Hvalid) Hbounds) _ Hw)
    as (out & Hrun & Hs & Hat); [now rewrite !length_map|].
  exists out. split; [exact Hrun|]. split; [now rewrite Hs, length_map|].
  intros i g b f Hg Hb Hf.
  destruct (nth_error_tables part i g Hg) as [H1 H2].
  rewrite (Hat b i f _ _ Hb Hf H1 H2).
  assert (Hin : In g part) by (eapply nth_error_In; eauto).
  destruct (validSpec_in _ _ Hvalid Hin) as [Hl1 Hl2].
  apply weightedSum_padded; [|exact Hl2].
  destruct g; [simpl in Hl1; lia | discriminate].
Qed.

Lemma avgPool_value :
  exists out,
    avgPool part x = Ok out
    /\ shape3 out = (B, length part, F)
    /\ forall i g b f, nth_error part i = Some g -> b < B -> f < F ->
         (at3 out b i f == groupMean x b f g)%Q.
Proof.
  destruct (valid_tables part Hvalid) as [Hr Hw].
  unfold avgPool, AveragePartitionPooling.init, AveragePartitionPooling.call.
  rewrite (PartitionPooling_init_valid part Hvalid). cbn [bind countWeights].
  rewrite (constant2_rect _ 0%Q _ _ Hw).
  cbn [bind AveragePartitionPooling.nodeWeight AveragePartitionPooling.base
       AveragePartitionPooling.partitionSizes adjustedPartitions].
  set (cw := map (fun e => weightRow (maxLenOf part) (length e)) part) in *.
  destruct (averagePartitionPooling_ok x B N F (maxLenOf part) _ Hshape Hr
              (valid_entries _ part Hvalid)
              (inBounds_padded N _ part (proj2 Hvalid) Hbounds) cw Hw
              ltac:(unfold cw; now rewrite !length_map)
              (Np.sum_last_axis cw)
              ltac:(unfold Np.sum_last_axis, cw; now rewrite !length_map))
    as (out & Hrun & Hs & Hat).
  exists out. split; [exact Hrun|]. split; [now rewrite Hs, length_map|].
  intros i g b f Hg Hb Hf.
  destruct (nth_error_tables part i g Hg) as [H1 H2]. fold cw in H2.
  assert (Hin : In g part) by (eapply nth_error_In; eauto).
  destruct (validSpec_in _ _ Hvalid Hin) as [Hl1 Hl2].
  rewrite (Hat b i f _ _ Hb Hf H1 H2). unfold groupMean.
  rewrite (nth_error_nth (Np.sum_last_axis cw) i 0%Q
             (x := Np.sum (weightRow (maxLenOf part) (length g))));
    [|unfold Np.sum_last_axis; now rewrite nth_error_map, H2].
  change (Np.sum (weightRow (maxLenOf part) (length g)))
    with (Tf.sum_list (weightRow (maxLenOf part) (length g))).
  rewrite (weightRow_sum _ _ Hl1), weightedSum_padded; [reflexivity | | exact Hl2].
  destruct g; [simpl in Hl1; lia | discriminate].
Qed.

End LayerValues.

(** ** Sums and maxima of lists *)

Lemma Qmax_case (p q : Q) : Qmax p q = p \/ Qmax p q = q.
Proof. unfold Qmax, GenericMinMax.gmax. destruct (p ?= q)%Q; auto. Qed.

Lemma max_list_attained (l : list Q) :
  l <> [] ->
  exists q, Tf.max_list l = Fin q /\ In q l /\ forall v, In v l -> (v <= q)%Q.
Proof.
  induction l as [|a [|c l] IH]; intros Hne; [congruence| |].
  - exists a. split; [reflexivity|]. split; [now left|].
    intros v [<-|[]]. apply Qle_refl.
  - destruct (IH ltac:(discriminate)) as (q & Hq & Hin & Hub).
    change (Tf.max_list (a :: c :: l))
      with (xmax (Fin a) (Tf.max_list (c :: l))).
    rewrite Hq. cbn [xmax]. exists (Qmax a q). split; [reflexivity|]. split.
    + destruct (Qmax_case a q) as [->| ->]; [now left | now right].
    + intros v [<-|Hv]; [apply Q.le_max_l|].
      apply Qle_trans with q; [now apply Hub | apply Q.le_max_r].
Qed.

Lemma sum_list_perm (l l' : list Q) :
  Permutation l l' -> (Tf.sum_list l == Tf.sum_list l')%Q.
Proof.
  induction 1 as [| a l l' _ IH | a c l | l l' l'' _ IH1 _ IH2]; simpl.
  - reflexivity.
  - now rewrite IH.
  - ring.
  - now rewrite IH1.
Qed.


Lemma sum_list_bound (l : list Q) (q : Q) :
  (forall v, In v l -> (v <= q)%Q) ->
  (Tf.sum_list l <= inject_Z (Z.of_nat (length l)) * q)%Q.
Proof.
  induction l as [|a l IH]; intros H.
  - simpl. rewrite Qmult_0_l. apply Qle_refl.
  - cbn [Tf.sum_list fold_right length]. fold (Tf.sum_list l).
    rewrite Nat2Z.inj_succ. unfold Z.succ. rewrite inject_Z_plus.
    setoid_replace ((inject_Z (Z.of_nat (length l)) + inject_Z 1) * q)%Q
      with (q + inject_Z (Z.of_nat (length l)) * q)%Q by ring.
    apply Qplus_le_compat; [apply H; now left | apply IH; intros; apply H; now right].
Qed.

Lemma groupMax_attained (x : Tensor3 Q) (b f : nat) (g : list Z) :
  g <> [] ->
  exists j, In j g
            /\ groupMax x b f g = Fin (at3 x b (Z.to_nat j) f)
            /\ forall j', In j' g ->
                 (at3 x b (Z.to_nat j') f <= at3 x b (Z.to_nat j) f)%Q.
Proof.
  intros Hg. destruct (max_list_attained (members x b f g)) as (q & Hq & Hin & Hub).
  { unfold members. destruct g; [congruence | discriminate]. }
  unfold members in Hin. apply in_map_iff in Hin. destruct Hin as (j & <- & Hj).
  exists j. split; [exact Hj|]. split; [exact Hq|].
  intros j' Hj'. apply Hub. unfold members.
  apply (in_map (fun j => at3 x b (Z.to_nat j) f)). exact Hj'.
Qed.

Lemma valid_group (part : list (list Z)) (i : nat) (g : list Z) :
  validSpec part -> nth_error part i = Some g -> g <> [].
Proof.
  intros Hv Hg. assert (Hin : In g part) by (eapply nth_error_In; eauto).
  destruct (validSpec_in _ _ Hv Hin) as [Hl _].
  destruct g; [simpl in Hl; lia | discriminate].
Qed.

(** ** Max pooling *)



(** X8.  The max layer sees a group as a set: if two valid specs hold, at
    positions [i] and [i'], groups with the same members (in any order, with
    any repetitions, next to any other groups), the two layers return equal
    values at these positions. *)
Theorem max_layer_depends_on_member_set
        (part part' : list (list Z)) (x : Tensor3 Q) (B N F : nat)
        (i i' : nat) (g g' : list Z) :
  validSpec part -> validSpec part' -> shape3 x = (B, N, F) ->
  inBounds N part -> inBounds N part' ->
  nth_error part i = Some g -> nth_error part' i' = Some g' ->
  (forall j, In j g <-> In j g') ->
  exists out out',
    maxPool part x = Ok out /\ maxPool part' x = Ok out'
    /\ forall b f, xeq (at3 out b i f) (at3 out' b i' f).
Proof.
  intros Hv Hv' Hs Hb Hb' Hg Hg' Hsame.
  destruct (maxPool_value part x B N F Hv Hs Hb) as (out & Hrun & _ & Hat).
  destruct (maxPool_value part' x B N F Hv' Hs Hb') as (out' & Hrun' & _ & Hat').
  exists out, out'. split; [exact Hrun|]. split; [exact Hrun'|].
  intros b f. rewrite (Hat i g b f Hg), (Hat' i' g' b f Hg').
  destruct (groupMax_attained x b f g (valid_group part i g Hv Hg))
    as (j & Hj & -> & Hub).
  destruct (groupMax_attained x b f g' (valid_group part' i' g' Hv' Hg'))
    as (j' & Hj' & -> & Hub').
  cbn [xeq]. apply Qle_antisym.
  - apply Hub'. now apply Hsame.
  - apply Hub. now apply Hsame.
Qed.

Lemma max_layer_member_set_witness :
  exists out out',
    maxPool [[0; 1]; [2]]%Z (tensorOfList [[[1]; [3]; [5]]]%Q) = Ok out
    /\ maxPool [[2; 0; 1]; [1; 1; 0]]%Z (tensorOfList [[[1]; [3]; [5]]]%Q) = Ok out'
    /\ xeq (at3 out 0 0 0) (at3 out' 0 1 0).
Proof.
  destruct (max_layer_depends_on_member_set
              [[0; 1]; [2]]%Z [[2; 0; 1]; [1; 1; 0]]%Z
              (tensorOfList [[[1]; [3]; [5]]]%Q) 1 3 1 0 1 [0; 1]%Z [1; 1; 0]%Z)
    as (out & out' & H1 & H2 & H3).
  - split; [discriminate | repeat constructor; discriminate].
  - split; [discriminate | repeat constructor; discriminate].
  - reflexivity.
  - repeat constructor; simpl; lia.
  - repeat constructor; simpl; lia.
  - reflexivity.
  - reflexivity.
  - intros j. simpl. tauto.
  - exists out, out'. split; [exact H1|]. split; [exact H2 | exact (H3 0 0)].
Defined.

(** ** Sum and average pooling *)

Lemma groupSum_perm (x : Tensor3 Q) (b f : nat) (g g' : list Z) :
  Permutation g g' -> (groupSum x b f g == groupSum x b f g')%Q.
Proof.
  intros Hp. unfold groupSum, members. apply sum_list_perm.
  now apply Permutation_map.
Qed.

(** X9.  In exact arithmetic (the weights and sums as rationals, without
    the rounding of the layers' [float32] constants), the sum and the
    average layer see a group as a multiset: if two
    valid specs hold, at positions [i] and [i'], groups that are
    permutations of each other (whatever their last member, which is the one
    that pads, and whatever the other groups and the width they force), the
    two layers return equal values at these positions. *)
Theorem sum_and_average_ignore_member_order
        (part part' : list (list Z)) (x : Tensor3 Q) (B N F : nat)
        (i i' : nat) (g g' : list Z) :
  validSpec part -> validSpec part' -> shape3 x = (B, N, F) ->
  inBounds N part -> inBounds N part' ->
  nth_error part i = Some g -> nth_error part' i' = Some g' ->
  Permutation g g' ->
  (exists out out',
      sumPool part x = Ok out /\ sumPool part' x = Ok out'
      /\ forall b f, b < B -> f < F -> (at3 out b i f == at3 out' b i' f)%Q)
  /\ (exists out out',
         avgPool part x = Ok out /\ avgPool part' x = Ok out'
         /\ forall b f, b < B -> f < F -> (at3 out b i f == at3 out' b i' f)%Q).
Proof.
  intros Hv Hv' Hs Hb Hb' Hg Hg' Hp. split.
  - destruct (sumPool_value part x B N F Hv Hs Hb) as (out & Hrun & _ & Hat).
    destruct (sumPool_value part' x B N F Hv' Hs Hb') as (out' & Hrun' & _ & Hat').
    exists out, out'. split; [exact Hrun|]. split; [exact Hrun'|].
    intros b f Hlt Hlt'.
    rewrite (Hat i g b f Hg Hlt Hlt'), (Hat' i' g' b f Hg' Hlt Hlt').
    now apply groupSum_perm.
  - destruct (avgPool_value part x B N F Hv Hs Hb) as (out & Hrun & _ & Hat).
    destruct (avgPool_value part' x B N F Hv' Hs Hb') as (out' & Hrun' & _ & Hat').
    exists out, out'. split; [exact Hrun|]. split; [exact Hrun'|].
    intros b f Hlt Hlt'.
    rewrite (Hat i g b f Hg Hlt Hlt'), (Hat' i' g' b f Hg' Hlt Hlt').
    unfold groupMean.
    now rewrite (groupSum_perm x b f g g' Hp), (Permutation_length Hp).
Qed.

Lemma sum_and_average_order_witness :
  exists out out',
    sumPool [[0; 2]; [1]]%Z (tensorOfList [[[1]; [3]; [5]]]%Q) = Ok out
    /\ sumPool [[1; 1; 1; 1]; [2; 0]]%Z (tensorOfList [[[1]; [3]; [5]]]%Q) = Ok out'
    /\ (at3 out 0 0 0 == at3 out' 0 1 0)%Q.
Proof.
  destruct (sum_and_average_ignore_member_order
              [[0; 2]; [1]]%Z [[1; 1; 1; 1]; [2; 0]]%Z
              (tensorOfList [[[1]; [3]; [5]]]%Q) 1 3 1 0 1 [0; 2]%Z [2; 0]%Z)
    as [(out & out' & H1 & H2 & H3) _].
  - split; [discriminate | repeat constructor; discriminate].
  - split; [discriminate | repeat constructor; discriminate].
  - reflexivity.
  - repeat constructor; simpl; lia.
  - repeat constructor; simpl; lia.
  - reflexivity.
  - reflexivity.
  - apply perm_swap.
  - exists out, out'. split; [exact H1|]. split; [exact H2|].
    apply H3; lia.
Defined.

(** ** What a pooled entry depends on *)

Lemma members_agree (x y : Tensor3 Q) (b f : nat) (g : list Z) :
  agreeOn x y b f g -> members x b f g = members y b f g.
Proof. intros H. unfold members. apply map_ext_in. exact H. Qed.

(** X10.  A pooled entry reads only its own group, batch element and
    feature: if two tensors of one shape hold the same feature [f] of batch
    element [b] at the nodes of group [i], the max, sum and average layers
    return for both the same entry (b, i, f), whatever the tensors hold
    elsewhere. *)
Theorem pooled_entry_reads_only_its_group
        (part : list (list Z)) (x y : Tensor3 Q) (B N F : nat)
        (i : nat) (g : list Z) (b f : nat) :
  validSpec part -> shape3 x = (B, N, F) -> shape3 y = (B, N, F) ->
  inBounds N part -> nth_error part i = Some g -> b < B -> f < F ->
  agreeOn x y b f g ->
  (exists ox oy, maxPool part x = Ok ox /\ maxPool part y = Ok oy
                 /\ at3 ox b i f = at3 oy b i f)
  /\ (exists ox oy, sumPool part x = Ok ox /\ sumPool part y = Ok oy
                    /\ (at3 ox b i f == at3 oy b i f)%Q)
  /\ (exists ox oy, avgPool part x = Ok ox /\ avgPool part y = Ok oy
                    /\ (at3 ox b i f == at3 oy b i f)%Q).
Proof.
  intros Hv Hx Hy Hb Hg Hlt Hlt' Hag.
  pose proof (members_agree x y b f g Hag) as Hm.
  split; [|split].
  - destruct (maxPool_value part x B N F Hv Hx Hb) as (ox & Rx & _ & Ax).
    destruct (maxPool_value part y B N F Hv Hy Hb) as (oy & Ry & _ & Ay).
    exists ox, oy. split; [exact Rx|]. split; [exact Ry|].
    rewrite (Ax i g b f Hg), (Ay i g b f Hg). unfold groupMax. now rewrite Hm.
  - destruct (sumPool_value part x B N F Hv Hx Hb) as (ox & Rx & _ & Ax).
    destruct (sumPool_value part y B N F Hv Hy Hb) as (oy & Ry & _ & Ay).
    exists ox, oy. split; [exact Rx|]. split; [exact Ry|].
    rewrite (Ax i g b f Hg Hlt Hlt'), (Ay i g b f Hg Hlt Hlt').
    unfold groupSum. now rewrite Hm.
  - destruct (avgPool_value part x B N F Hv Hx Hb) as (ox & Rx & _ & Ax).
    destruct (avgPool_value part y B N F Hv Hy Hb) as (oy & Ry & _ & Ay).
    exists ox, oy. split; [exact Rx|]. split; [exact Ry|].
    rewrite (Ax i g b f Hg Hlt Hlt'), (Ay i g b f Hg Hlt Hlt').
    unfold groupMean, groupSum. now rewrite Hm.
Qed.

Lemma pooled_entry_witness :
  exists ox oy,
    sumPool [[0; 1]; [2]]%Z (tensorOfList [[[1]; [3]; [5]]]%Q) = Ok ox
    /\ sumPool [[0; 1]; [2]]%Z (tensorOfList [[[1]; [3]; [9]]]%Q) = Ok oy
    /\ (at3 ox 0 0 0 == at3 oy 0 0 0)%Q.
Proof.
  destruct (pooled_entry_reads_only_its_group
              [[0; 1]; [2]]%Z (tensorOfList [[[1]; [3]; [5]]]%Q)
              (tensorOfList [[[1]; [3]; [9]]]%Q) 1 3 1 0 [0; 1]%Z 0 0)
    as (_ & H & _).
  - split; [discriminate | repeat constructor; discriminate].
  - reflexivity.
  - reflexivity.
  - repeat constructor; simpl; lia.
  - reflexivity.
  - lia.
  - lia.
  - intros j [<-|[<-|[]]]; reflexivity.
  - exact H.
Defined.



(** ** How the three layers relate *)

(** X12.  In exact arithmetic (the weights and sums as rationals, without
    the rounding of the layers' [float32] constants), on the same valid spec
    and in-bounds tensor, for every group of [len] indices: the sum layer's
    entry is [len] times the average layer's, and the average layer's entry
    is at most the max layer's. *)
Theorem sum_average_and_max_are_related
        (part : list (list Z)) (x : Tensor3 Q) (B N F : nat) :
  validSpec part -> shape3 x = (B, N, F) -> inBounds N part ->
  exists osum oavg omax,
    sumPool part x = Ok osum /\ avgPool part x = Ok oavg
    /\ maxPool part x = Ok omax
    /\ forall i g b f, nth_error part i = Some g -> b < B -> f < F ->
         (at3 osum b i f == inject_Z (Z.of_nat (length g)) * at3 oavg b i f)%Q
         /\ exists q, at3 omax b i f = Fin q /\ (at3 oavg b i f <= q)%Q.
Proof.
  intros Hv Hs Hb.
  destruct (sumPool_value part x B N F Hv Hs Hb) as (osum & Rs & _ & As).
  destruct (avgPool_value part x B N F Hv Hs Hb) as (oavg & Ra & _ & Aa).
  destruct (maxPool_value part x B N F Hv Hs Hb) as (omax & Rm & _ & Am).
  exists osum, oavg, omax. repeat (split; [assumption|]).
  intros i g b f Hg Hlt Hlt'.
  rewrite (As i g b f Hg Hlt Hlt'), (Aa i g b f Hg Hlt Hlt'), (Am i g b f Hg).
  pose proof (valid_group part i g Hv Hg) as Hne.
  assert (Hpos : (0 < inject_Z (Z.of_nat (length g)))%Q).
  { change 0%Q with (inject_Z 0). rewrite <- Zlt_Qlt.
    destruct g; [congruence | simpl; lia]. }
  split.
  - unfold groupMean. field. intros H0. rewrite H0 in Hpos.
    exact (Qlt_irrefl 0 Hpos).
  - destruct (max_list_attained (members x b f g)) as (q & Hq & _ & Hub).
    { unfold members. destruct g; [congruence | discriminate]. }
    exists q. split; [exact Hq|].
    rewrite (Aa i g b f Hg Hlt Hlt').
    unfold groupMean. apply Qle_shift_div_r; [exact Hpos|].
    rewrite Qmult_comm. unfold groupSum.
    replace (length g) with (length (members x b f g))
      by (unfold members; apply length_map).
    now apply sum_list_bound.
Qed.

Lemma sum_average_max_witness :
  exists osum oavg omax,
    sumPool [[0; 1]; [2]]%Z (tensorOfList [[[1]; [3]; [5]]]%Q) = Ok osum
    /\ avgPool [[0; 1]; [2]]%Z (tensorOfList [[[1]; [3]; [5]]]%Q) = Ok oavg
    /\ maxPool [[0; 1]; [2]]%Z (tensorOfList [[[1]; [3]; [5]]]%Q) = Ok omax
    /\ (at3 osum 0 0 0 == 2 * at3 oavg 0 0 0)%Q.
Proof.
  destruct (sum_average_and_max_are_related
              [[0; 1]; [2]]%Z (tensorOfList [[[1]; [3]; [5]]]%Q) 1 3 1)
    as (osum & oavg & omax & H1 & H2 & H3 & H4).
  - split; [discriminate | repeat constructor; discriminate].
  - reflexivity.
  - repeat constructor; simpl; lia.
  - exists osum, oavg, omax. repeat (split; [assumption|]).
    destruct (H4 0 [0; 1]%Z 0 0 eq_refl) as [H _]; [lia | lia | exact H].
Defined.

(** ** Calls that fail *)

Lemma constant2_ragged (A : Type) (d : A) (table : list (list A)) (r r' : list A) :
  In r table -> In r' table -> length r <> length r' ->
  Tf.constant2 d table = Raise ValueError.
Proof.
  intros Hr Hr' Hne. unfold Tf.constant2.
  destruct (forallb _ table) eqn:E; [exfalso|reflexivity].
  rewrite forallb_forall in E.
  pose proof (E r Hr) as H1. pose proof (E r' Hr') as H2.
  apply Nat.eqb_eq in H1, H2. congruence.
Qed.

(** X13.  The three pooling functions need sublists of equal length: an
    index table that has two rows of different lengths makes each of them
    raise [ValueError], whatever the tensor and the weights. *)
Theorem ragged_table_is_refused
        (x : Tensor3 Q) (table : list (list Z)) (r r' : list Z) :
  In r table -> In r' table -> length r <> length r' ->
  maxPartitionPooling x table = Raise ValueError
  /\ (forall w, sumPartitionPooling x w table = Raise ValueError)
  /\ (forall w s, averagePartitionPooling x w s table = Raise ValueError).
Proof.
  intros Hr Hr' Hne.
  unfold maxPartitionPooling, sumPartitionPooling, averagePartitionPooling,
    Tf.constant_ints.
  rewrite (constant2_ragged _ 0%Z table r r' Hr Hr' Hne). cbn [bind]. auto.
Qed.

Lemma ragged_table_witness :
  maxPartitionPooling (tensorOfList [[[1]; [3]; [5]]]%Q) [[0; 1]; [2]]%Z
  = Raise ValueError.
Proof.
  refine (proj1 (ragged_table_is_refused
                   (tensorOfList [[[1]; [3]; [5]]]%Q) [[0; 1]; [2]]%Z
                   [0; 1]%Z [2]%Z _ _ _)).
  - now left.
  - right. now left.
  - simpl. lia.
Defined.

Lemma bdim_raise (a b : nat) :
  a <> b -> a <> 1 -> b <> 1 -> Tf.bdim a b = Raise ValueError.
Proof.
  intros H1 H2 H3. unfold Tf.bdim.
  destruct (Nat.eqb_spec a b); [contradiction|].
  destruct (Nat.eqb_spec a 1); [contradiction|].
  destruct (Nat.eqb_spec b 1); [contradiction | reflexivity].
Qed.

(** X14.  The weights must have the shape of the index table: on a
    rectangular, in-bounds index table with [P] rows of [M] indices, a weight
    tensor whose number of rows differs from [P], or whose width differs
    from [M], with none of the two sizes being 1 (which would broadcast),
    makes sum pooling and average pooling fail. *)
Theorem mismatched_weights_are_refused
        (x : Tensor3 Q) (B N F M : nat) (table : list (list Z)) (w : Tensor2 Q) :
  shape3 x = (B, N, F) -> rectangular M table -> concat table <> [] ->
  inBounds N table ->
  (fst (shape2 w) <> length table /\ fst (shape2 w) <> 1 /\ length table <> 1)
  \/ (snd (shape2 w) <> M /\ snd (shape2 w) <> 1 /\ M <> 1) ->
  raises (sumPartitionPooling x w table)
  /\ forall s, raises (averagePartitionPooling x w s table).
Proof.
  intros Hs Hr He Hb Hbad.
  assert (Hmul : exists e, Tf.multiply4 (gathered x M table) (Tf.reshape_1_2_1 w)
                           = Raise e).
  { unfold Tf.multiply4, Tf.broadcast4, Tf.reshape_1_2_1, gathered.
    rewrite Hs. destruct (shape2 w) as [P' M']. cbn [shape4 fst snd] in *.
    rewrite bdim_1_r. cbn [bind].
    destruct Hbad as [(H1 & H2 & H3)|(H1 & H2 & H3)].
    - rewrite bdim_raise by auto. eexists; reflexivity.
    - destruct (Tf.bdim (length table) P'); [|eexists; reflexivity]. cbn [bind].
      rewrite bdim_raise by auto. eexists; reflexivity. }
  destruct Hmul as [e Hmul].
  unfold sumPartitionPooling, averagePartitionPooling,
    Tf.function, Tf.gbind, Tf.trace, Tf.built.
  rewrite (constant_ints_rect _ _ Hr He). cbn [bind].
  rewrite (gather_traced _ x B N F M table Hs). cbn [bind].
  rewrite Hmul. cbn [bind]. split; [|intros s]; eexists; reflexivity.
Qed.

Lemma mismatched_weights_witness :
  raises (sumPartitionPooling (tensorOfList [[[1]; [3]; [5]]]%Q)
                              (tableTensor 0%Q 3 [[1; 1; 1]; [1; 1; 1]]%Q)
                              [[0; 1]; [2; 2]]%Z).
Proof.
  refine (proj1 (mismatched_weights_are_refused
                   (tensorOfList [[[1]; [3]; [5]]]%Q) 1 3 1 2 [[0; 1]; [2; 2]]%Z
                   (tableTensor 0%Q 3 [[1; 1; 1]; [1; 1; 1]]%Q) _ _ _ _ _)).
  - reflexivity.
  - split; [reflexivity | repeat constructor].
  - discriminate.
  - repeat constructor; simpl; lia.
  - right. simpl. lia.
Defined.

Lemma pools_of_accepted_spec
      (part adj : list (list Z)) (cw : list (list Q)) (x : Tensor3 Q) :
  adjustPartitionLength part = Ok (adj, cw) ->
  maxPool part x = maxPartitionPooling x adj
  /\ sumPool part x
     = sumPartitionPooling x (tableTensor 0%Q (maxLenOf part) cw) adj
  /\ avgPool part x
     = averagePartitionPooling x (tableTensor 0%Q (maxLenOf part) cw)
                               (Tf.constant1 0%Q (Np.sum_last_axis cw)) adj.
Proof.
  intros Hrun.
  destruct (accepted_tables part adj cw Hrun) as (_ & Hw & _).
  unfold maxPool, sumPool, avgPool, MaxPartitionPooling.init,
    SumPartitionPooling.init, AveragePartitionPooling.init,
    MaxPartitionPooling.call, SumPartitionPooling.call,
    AveragePartitionPooling.call, PartitionPooling_init.
  rewrite Hrun. cbn [bind countWeights adjustedPartitions].
  rewrite (constant2_rect _ 0%Q _ _ Hw). cbn [bind]. auto.
Qed.

Lemma concat_all_empty (A : Type) (l : list (list A)) :
  Forall (fun e => e = []) l -> concat l = [].
Proof. induction 1 as [|e l -> _ IH]; [reflexivity | exact IH]. Qed.

(** X15.  How the call of a layer that was built can fail, for a spec of
    indices in the range of [int64].  If the spec is valid and some index of
    it is outside the node axis of the tensor, the call of each of the three
    layers raises [InvalidArgumentError] when the tensor has at least one
    batch element and one feature; on a tensor with an empty batch each call
    returns.  If the spec is not valid (the normaliser accepts it only when
    all its groups are empty), each call raises [TypeError], for every
    tensor.  No call raises [ValueError]: the tables of a layer are never
    ragged and its weights have the shape of its index table. *)
Theorem layer_call_failures
        (part : list (list Z)) (x : Tensor3 Q) (B N F : nat) :
  shape3 x = (B, N, F) -> int64Spec part ->
  succeeds (adjustPartitionLength part) ->
  (validSpec part -> ~ inBounds N part -> 0 < B -> 0 < F ->
   maxPool part x = Raise InvalidArgumentError
   /\ sumPool part x = Raise InvalidArgumentError
   /\ avgPool part x = Raise InvalidArgumentError)
  /\ (validSpec part -> B = 0 ->
      succeeds (maxPool part x) /\ succeeds (sumPool part x)
      /\ succeeds (avgPool part x))
  /\ (~ validSpec part ->
      maxPool part x = Raise TypeError
      /\ sumPool part x = Raise TypeError
      /\ avgPool part x = Raise TypeError)
  /\ (maxPool part x <> Raise ValueError
      /\ sumPool part x <> Raise ValueError
      /\ avgPool part x <> Raise ValueError).
Proof.
  intros Hs _ [[adj cw] Hrun].
  destruct (pools_of_accepted_spec part adj cw x Hrun) as (-> & -> & ->).
  destruct (accepted_tables part adj cw Hrun) as (Hr & Hw & Hl & Hl' & Hin).
  destruct (accepted_cases part (ex_intro _ _ Hrun)) as [Hv|[Hne Hall]].
  - assert (Hadj : adj = map (paddedRow (maxLenOf part)) part).
    { rewrite (adjustPartitionLength_valid part Hv) in Hrun. congruence. }
    assert (He : concat adj <> [])
      by (rewrite Hadj; now apply valid_entries).
    assert (Hsz : length (Np.sum_last_axis cw) = length adj)
      by (unfold Np.sum_last_axis; rewrite length_map; congruence).
    destruct (maxPartitionPooling_outcome x B N F _ adj Hs Hr He)
      as (o1 & -> & _).
    destruct (sumPartitionPooling_outcome x B N F _ adj Hs Hr He cw Hw
                ltac:(congruence)) as (o2 & -> & _).
    destruct (averagePartitionPooling_outcome x B N F _ adj Hs Hr He cw Hw
                ltac:(congruence) _ Hsz) as (o3 & -> & _).
    split; [|split; [|split]].
    + intros _ Hnb HB HF.
      destruct (inBounds_dec N part) as [Hb|(row & j & Hrow & Hj & Hout)];
        [contradiction|].
      assert (Hrow' : In (paddedRow (maxLenOf part) row) adj)
        by (rewrite Hadj; now apply in_map).
      assert (Hj' : In j (paddedRow (maxLenOf part) row))
        by (unfold paddedRow; apply in_or_app; now left).
      rewrite (kernel_refused _ x B N F _ adj _ j Hs Hr HB HF Hrow' Hj' Hout).
      cbn [ran]. auto.
    + intros _ HB0.
      rewrite (kernel_empty _ x B N F _ Hs (or_introl HB0)). cbn [ran].
      repeat split; eexists; reflexivity.
    + intros Hnv. contradiction.
    + destruct (kernel_cases _ x (tableTensor 0%Z (maxLenOf part) adj)) as [-> | ->];
        cbn [ran]; repeat split; discriminate.
  - assert (Hnv : ~ validSpec part).
    { intros [_ Hv]. destruct part as [|e part]; [congruence|].
      inversion Hv; inversion Hall; subst. congruence. }
    assert (Hrect : rectangular 0 part).
    { split.
      - destruct Hall as [|e ? -> _]; reflexivity.
      - apply Forall_forall. rewrite Forall_forall in Hall.
        intros e He. now rewrite (Hall e He). }
    assert (He : concat adj = []).
    { rewrite (adjust_rectangular part 0 Hne Hrect) in Hrun.
      injection Hrun as <- _. now apply concat_all_empty. }
    destruct (pooling_without_entries x (maxLenOf part) adj Hr He)
      as (-> & R2 & R3).
    rewrite R2, R3.
    split; [|split; [|split]].
    + intros Hv. contradiction.
    + intros Hv. contradiction.
    + auto.
    + repeat split; discriminate.
Qed.

Lemma layer_call_failures_witness :
  sumPool [[0; 7]; [1]]%Z (tensorOfList [[[1]; [3]; [5]]]%Q)
  = Raise InvalidArgumentError
  /\ avgPool [[]; []] (tensorOfList [[[1]; [3]; [5]]]%Q) = Raise TypeError.
Proof.
  split.
  - destruct (layer_call_failures
                [[0; 7]; [1]]%Z (tensorOfList [[[1]; [3]; [5]]]%Q) 1 3 1 eq_refl)
      as (H & _).
    + repeat constructor; unfold int64; simpl; lia.
    + eexists; reflexivity.
    + apply H.
      * split; [discriminate | repeat constructor; discriminate].
      * intros Hb. inversion Hb as [|? ? Hrow _]; subst.
        inversion Hrow as [|? ? _ Hrest]; subst.
        inversion Hrest as [|? ? H7 _]; subst. simpl in H7. lia.
      * lia.
      * lia.
  - destruct (layer_call_failures
                [[]; []] (tensorOfList [[[1]; [3]; [5]]]%Q) 1 3 1 eq_refl)
      as (_ & _ & H & _).
    + repeat constructor.
    + eexists; reflexivity.
    + apply H. intros [_ Hv]. inversion Hv; subst. congruence.
Defined.

Lemma layers_are_built_witness :
  MaxPartitionPooling.init [[0; 1]; [2]]%Z
  = Ok (mkPartitionPooling [[0; 1]; [2]]%Z [[0; 1]; [2; 2]]%Z
                           [[1; 1]; [1 # 2; 1 # 2]]%Q)
  /\ SumPartitionPooling.init [[]; [1]]%Z = Raise ValueError.
Proof.
  split.
  - exact (proj1 (proj2 (layers_are_built_when_normaliser_accepts [[0; 1]; [2]]%Z)
                    _ _ eq_refl)).
  - exact (proj1 (proj2 (proj1 (layers_are_built_when_normaliser_accepts
                                  [[]; [1]]%Z) _ eq_refl))).
Defined.

(** ** Why the weights are needed *)



